(** * The guessing game: [safe.c] and [vuln.c]

    A shallow embedding of the two C programs of the repository and of
    the C library calls they make.  Characters are [ascii] values, an
    [int] is a [Z] in the range of a 32-bit two's complement integer, a
    [char] array is a [list ascii] written by index, and a [char *] that
    points into an array is the list of the bytes from that position
    on.  An execution that reads or writes past the end of an array, or
    that asks [atoi] for a value an [int] cannot hold, has no behaviour
    in C: such an execution is [Undefined] here. *)

From Stdlib Require Import ZArith Lia Ascii String.
From stdpp Require Import base list strings.

Open Scope Z_scope.

(** ** Executions *)

Inductive fault : Type :=
  | OutOfBounds   (* access past the end of an array *)
  | Overflow.     (* result of [atoi] not representable as an [int] *)

Inductive outcome (A : Type) : Type :=
  | Ok (a : A)
  | Undefined (f : fault).
Arguments Ok {A} a.
Arguments Undefined {A} f.

#[global] Instance outcome_ret : MRet outcome := λ A a, Ok a.
#[global] Instance outcome_bind : MBind outcome := λ A B k m,
  match m with
  | Ok a => k a
  | Undefined f => Undefined f
  end.

(** ** Characters and arrays *)

Definition NUL : ascii := "000"%char.
Definition LF : ascii := "010"%char.

Definition chars (s : string) : list ascii := list_ascii_of_string s.

(** [*p] for a pointer [p] into an array. *)
Definition deref (p : list ascii) : outcome ascii :=
  match p with
  | [] => Undefined OutOfBounds
  | c :: _ => Ok c
  end.

(** [a[i] = c]. *)
Definition store (a : list ascii) (i : nat) (c : ascii) : outcome (list ascii) :=
  if decide (i < length a)%nat then Ok (<[i:=c]> a) else Undefined OutOfBounds.

(** [isdigit] and [isspace] of <ctype.h> in the C locale. *)
Definition isdigit (c : ascii) : bool :=
  let n := N_of_ascii c in (48 <=? n)%N && (n <=? 57)%N.

Definition isspace (c : ascii) : bool :=
  let n := N_of_ascii c in ((9 <=? n)%N && (n <=? 13)%N) || (n =? 32)%N.

Definition is_sign (c : ascii) : bool :=
  bool_decide (c = "-"%char) || bool_decide (c = "+"%char).

(** ** [is_number] (safe.c) *)

(** The loop [while ( *str) { if (!isdigit( *str)) return 0; str++; } return 1;]. *)
Fixpoint is_number_loop (str : list ascii) : outcome bool :=
  match str with
  | [] => Undefined OutOfBounds
  | c :: str' =>
      if bool_decide (c = NUL) then Ok true
      else if negb (isdigit c) then Ok false
      else is_number_loop str'
  end.

Definition is_number (str : list ascii) : outcome bool :=
  c ← deref str;
  let str := if is_sign c then tail str else str in   (* allow sign *)
  c ← deref str;
  if bool_decide (c = NUL) then Ok false                (* empty string *)
  else is_number_loop str.

(** ** The grammar of the specification

    [[+-]?[0-9]+]: an optional sign, then at least one decimal digit. *)

Definition ascii_digit (c : ascii) : Prop := c ∈ chars "0123456789".

Definition optional_sign (s : list ascii) : Prop :=
  s = [] ∨ s = chars "+" ∨ s = chars "-".

Definition numeral (s : list ascii) : Prop :=
  ∃ sign digits,
    s = sign ++ digits ∧ optional_sign sign ∧ digits ≠ [] ∧ Forall ascii_digit digits.

(** What is left of a text once an optional leading sign is consumed. *)
Definition after_sign (s : list ascii) : list ascii :=
  match s with
  | c :: s' => if is_sign c then s' else s
  | [] => []
  end.

(** A C string [s] stored at the start of an array: the bytes of [s],
    none of them NUL, then the terminator, then whatever follows. *)
Definition holds (s : list ascii) (a : list ascii) : Prop :=
  (NUL ∉ s) ∧ (∃ rest, a = s ++ NUL :: rest).

(** ** The C library, as the programs use it *)

(** Limits of [int]. *)
Definition INT_MIN : Z := - 2 ^ 31.
Definition INT_MAX : Z := 2 ^ 31 - 1.

Definition in_int_range (v : Z) : Prop := INT_MIN ≤ v ≤ INT_MAX.

(** *** [atoi]

    Blanks are skipped, an optional sign is taken, then the digits up
    to the first character that is not one; the value is the one
    [strtol] computes in base 10.  A value that an [int] cannot hold
    leaves the behaviour undefined. *)

Definition digit_value (c : ascii) : Z := Z.of_N (N_of_ascii c) - 48.

Fixpoint atoi_digits (acc : Z) (p : list ascii) : outcome Z :=
  match p with
  | [] => Undefined OutOfBounds
  | c :: p' =>
      if isdigit c then atoi_digits (10 * acc + digit_value c) p' else Ok acc
  end.

Definition atoi_signed (p : list ascii) : outcome Z :=
  c ← deref p;
  if bool_decide (c = "-"%char) then v ← atoi_digits 0 (tail p); Ok (- v)
  else if bool_decide (c = "+"%char) then atoi_digits 0 (tail p)
  else atoi_digits 0 p.

Fixpoint atoi_value (p : list ascii) : outcome Z :=
  match p with
  | [] => Undefined OutOfBounds
  | c :: p' => if isspace c then atoi_value p' else atoi_signed p
  end.

Definition atoi (p : list ascii) : outcome Z :=
  v ← atoi_value p;
  if bool_decide (in_int_range v) then Ok v else Undefined Overflow.

(** *** [strcspn]

    The length of the initial part of [s] that has no character of
    [reject]; the terminator of [s] ends the scan. *)
Fixpoint strcspn (s reject : list ascii) : outcome nat :=
  match s with
  | [] => Undefined OutOfBounds
  | c :: s' =>
      if bool_decide (c = NUL) || bool_decide (c ∈ reject) then Ok 0%nat
      else n ← strcspn s' reject; Ok (S n)
  end.

(** *** [fgets]

    [fgets_loop k i a stream] reads at most [k] more characters of
    [stream] into [a] from index [i] on and stops after a line feed.
    It returns the index reached, the array, what is left of the
    stream, and whether the end of the stream was met. *)
Fixpoint fgets_loop (k i : nat) (a stream : list ascii)
  : outcome (nat * list ascii * list ascii * bool) :=
  match k with
  | O => Ok (i, a, stream, false)
  | S k' =>
      match stream with
      | [] => Ok (i, a, [], true)
      | c :: stream' =>
          a' ← store a i c;
          if bool_decide (c = LF) then Ok (S i, a', stream', false)
          else fgets_loop k' (S i) a' stream'
      end
  end.

(** [fgets(a, n, stream)]: the result tells whether the call returned
    [a] ([true]) or a null pointer ([false]: end of stream before any
    character, the array is left as it was). *)
Definition fgets (a : list ascii) (n : nat) (stream : list ascii)
  : outcome (bool * list ascii * list ascii) :=
  '(i, a', rest, eof) ← fgets_loop (n - 1) 0 a stream;
  if eof && bool_decide (i = 0%nat) then Ok (false, a, rest)
  else a'' ← store a' i NUL; Ok (true, a'', rest).

(** *** [scanf("%s", a)]

    Leading blanks are skipped, then the characters up to the next
    blank or the end of the stream are stored, then a terminator.
    Nothing bounds the number of characters stored. *)
Fixpoint skip_space (stream : list ascii) : list ascii :=
  match stream with
  | [] => []
  | c :: stream' => if isspace c then skip_space stream' else stream
  end.

Fixpoint scanf_s_loop (i : nat) (a stream : list ascii)
  : outcome (list ascii * list ascii) :=
  match stream with
  | [] => a' ← store a i NUL; Ok (a', [])
  | c :: stream' =>
      if isspace c then a' ← store a i NUL; Ok (a', stream)
      else a' ← store a i c; scanf_s_loop (S i) a' stream'
  end.

Definition scanf_s (a stream : list ascii) : outcome (list ascii * list ascii) :=
  match skip_space stream with
  | [] => Ok (a, [])              (* input failure: nothing is stored *)
  | token => scanf_s_loop 0 a token
  end.

(** *** [printf("%d", v)] *)

Definition digit_char (d : Z) : ascii := ascii_of_N (Z.to_N (48 + d)).

Fixpoint render_digits (fuel : nat) (n : Z) (acc : list ascii) : list ascii :=
  match fuel with
  | O => acc
  | S fuel' =>
      let acc' := digit_char (n mod 10) :: acc in
      if n <? 10 then acc' else render_digits fuel' (n / 10) acc'
  end.

Definition render_nat (n : Z) : list ascii :=
  render_digits (S (Z.to_nat (Z.log2 n))) n [].

Definition render_int (v : Z) : list ascii :=
  if v <? 0 then "-"%char :: render_nat (- v) else render_nat v.

Definition nl : string := String LF EmptyString.

(** [printf(prefix "%d\n", v)] *)
Definition printf_d (prefix : string) (v : Z) : string :=
  (prefix ++ string_of_list_ascii (render_int v) ++ nl)%string.

(** ** The programs *)

(** [rand() % 100 + 1], for the value [draw] that [rand()] returns. *)
Definition generate_secret (draw : Z) : Z := Z.rem draw 100 + 1.

Inductive verdict : Type := TooSmall | TooLarge | Correct.

(** The comparison common to both programs:
    [if (guess < secret) .. else if (guess > secret) .. else ..]. *)
Definition compare (guess secret : Z) : verdict :=
  if guess <? secret then TooSmall
  else if guess >? secret then TooLarge
  else Correct.

Definition verdict_line (v : verdict) : string :=
  match v with
  | TooSmall => "too small" ++ nl
  | TooLarge => "too much" ++ nl
  | Correct => "congrats" ++ nl
  end%string.

(** What one execution leaves behind: the two integers, the writes to
    the standard output and to the standard error in the order they
    were made, and the exit status. *)
Record run : Type := Run {
  guess : Z;
  secret : Z;
  stdout : list string;
  stderr : list string;
  exit_status : Z
}.

Definition prompt : string := "pls guess a number: ".
Definition read_error : string := ("Error reading input." ++ nl)%string.
Definition invalid_input : string :=
  ("Invalid input. Please enter a number." ++ nl)%string.

(** The tail of both [main]s, from the comparison on. *)
Definition report (guess secret : Z) (err : list string) : run :=
  {| guess := guess;
     secret := secret;
     stdout := [prompt;
                verdict_line (compare guess secret);
                printf_d "you guessed : " guess;
                printf_d "secret num. : " secret];
     stderr := err;
     exit_status := 0 |}.

(** The four assignments [buffer[0] = '1'; .. buffer[3] = '7';]. *)
Definition write_fallback (buffer : list ascii) : outcome (list ascii) :=
  buffer ← store buffer 0 "1"%char;
  buffer ← store buffer 1 "3"%char;
  buffer ← store buffer 2 "3"%char;
  store buffer 3 "7"%char.

(** [main] of safe.c.  [draw] is what [rand()] returns, [buffer] the
    100 bytes that the array holds when [main] is entered (the program
    does not initialise them), [stdin] the characters waiting on the
    standard input. *)
Definition safe_main (draw : Z) (buffer stdin : list ascii) : outcome run :=
  let secret := generate_secret draw in
  '(got, buffer, _) ← fgets buffer 100 stdin;
  let err := if got : bool then [] else [read_error] in
  k ← strcspn buffer [LF];
  buffer ← store buffer k NUL;
  valid ← is_number buffer;
  '(err, buffer) ←
    (if valid : bool then Ok (err, buffer)
     else buffer ← write_fallback buffer; Ok (err ++ [invalid_input], buffer));
  guess ← atoi buffer;
  Ok (report guess secret err).

(** [main] of vuln.c, with its 32-byte array. *)
Definition vuln_main (draw : Z) (buffer stdin : list ascii) : outcome run :=
  let secret := generate_secret draw in
  '(buffer, _) ← scanf_s buffer stdin;
  guess ← atoi buffer;
  Ok (report guess secret []).

(** An array of [n] bytes that starts with the characters of [s] and
    is otherwise zero. *)
Definition array_of (n : nat) (s : string) : list ascii :=
  take n (chars s ++ replicate n NUL).

Definition line (s : string) : list ascii := chars s ++ [LF].

(** ** Notions used to state the properties *)

(** Exchanging [TooSmall] and [TooLarge]. *)
Definition flip (v : verdict) : verdict :=
  match v with
  | TooSmall => TooLarge
  | TooLarge => TooSmall
  | Correct => Correct
  end.

(** The value of a run of digits, accumulated as [atoi] does. *)
Definition digits_value (acc : Z) (ds : list ascii) : Z :=
  fold_left (λ a c, 10 * a + digit_value c) ds acc.

(** Digits without a redundant leading zero. *)
Definition proper (ds : list ascii) : Prop :=
  forallb isdigit ds = true ∧ (length ds = 1%nat ∨ head ds ≠ Some "0"%char).

(** A run of digits in canonical form: not empty, and without a
    leading zero unless it is the single digit 0. *)
Definition canonical_digits (ds : list ascii) : Prop :=
  ds ≠ [] ∧ Forall ascii_digit ds ∧ (ds = chars "0" ∨ head ds ≠ Some "0"%char).

(** A numeral in canonical form: an optional sign and canonical
    digits, zero carrying no minus sign. *)
Definition canonical_numeral (s : list ascii) : Prop :=
  ∃ sign ds,
    s = sign ++ ds ∧ optional_sign sign ∧ canonical_digits ds ∧
    ¬ (sign = chars "-" ∧ ds = chars "0").

(** Dropping a redundant leading [+]. *)
Definition strip_plus (s : list ascii) : list ascii :=
  match s with
  | c :: s' => if bool_decide (c = "+"%char) then s' else s
  | [] => []
  end.

(** A blank-free token of [scanf("%s")]: not empty, no blank and no
    NUL in it. *)
Definition token (t : list ascii) : Prop :=
  t ≠ [] ∧ Forall (λ c, isspace c = false ∧ c ≠ NUL) t.


(** ** The safe program over the [atoi] of the library

    [main] of safe.c once more, with the [atoi] it is linked with as a
    parameter: what ISO C leaves undefined (a value that an [int]
    cannot hold) a given library does answer.  [safe_main] is
    [safe_main_with atoi]. *)
Definition safe_main_with (libc_atoi : list ascii → outcome Z)
    (draw : Z) (buffer stdin : list ascii) : outcome run :=
  let secret := generate_secret draw in
  '(got, buffer, _) ← fgets buffer 100 stdin;
  let err := if got : bool then [] else [read_error] in
  k ← strcspn buffer [LF];
  buffer ← store buffer k NUL;
  valid ← is_number buffer;
  '(err, buffer) ←
    (if valid : bool then Ok (err, buffer)
     else buffer ← write_fallback buffer; Ok (err ++ [invalid_input], buffer));
  guess ← libc_atoi buffer;
  Ok (report guess secret err).

(** An [atoi] that returns on every terminated array. *)
Definition returns_on_strings (libc_atoi : list ascii → outcome Z) : Prop :=
  ∀ q tail, ∃ v, libc_atoi (q ++ NUL :: tail) = Ok v.

(** The [atoi] of a library that computes [(int) strtol(p, NULL, 10)]
    with a 64-bit [long]: the value is clamped to the range of [long]
    and the conversion to [int] keeps its low 32 bits. *)
Definition LONG_MIN : Z := - 2 ^ 63.
Definition LONG_MAX : Z := 2 ^ 63 - 1.

Definition wrap_int (v : Z) : Z := (v + 2 ^ 31) mod 2 ^ 32 - 2 ^ 31.

Definition atoi_wrapping (p : list ascii) : outcome Z :=
  v ← atoi_value p;
  Ok (wrap_int (Z.max LONG_MIN (Z.min LONG_MAX v))).
(** ** Properties of the validator *)

Lemma isdigit_ascii_digit c : isdigit c = true ↔ ascii_digit c.
Proof.
  unfold ascii_digit. split.
  - destruct c as [[] [] [] [] [] [] [] []]; intros H;
      try discriminate H; apply list_elem_of_In; simpl; tauto.
  - intros H. unfold chars in H. simpl in H.
    repeat (apply elem_of_cons in H as [-> | H]; [reflexivity |]).
    by apply elem_of_nil in H.
Qed.

Lemma isdigit_not_sign c : isdigit c = true → is_sign c = false.
Proof.
  intros H. unfold is_sign.
  rewrite !bool_decide_eq_false_2; [done | by intros -> ..].
Qed.

Lemma is_sign_cases c : is_sign c = true ↔ c = "+"%char ∨ c = "-"%char.
Proof.
  unfold is_sign. rewrite orb_true_iff, !bool_decide_eq_true. tauto.
Qed.

(** The loop answers on every terminated string: 1 exactly when all
    the characters before the terminator are digits. *)
Lemma is_number_loop_spec s rest :
  NUL ∉ s →
  is_number_loop (s ++ NUL :: rest) = Ok (forallb isdigit s).
Proof.
  induction s as [|c s IH]; intros Hnul; simpl.
  - done.
  - apply not_elem_of_cons in Hnul as [Hc Hs].
    rewrite bool_decide_eq_false_2 by done.
    destruct (isdigit c); simpl; [by apply IH | done].
Qed.

Lemma is_number_spec s rest :
  NUL ∉ s →
  is_number (s ++ NUL :: rest) =
    Ok (bool_decide (after_sign s ≠ []) && forallb isdigit (after_sign s)).
Proof.
  intros Hnul. destruct s as [|c s]; [done |].
  apply not_elem_of_cons in Hnul as [Hc Hs].
  unfold is_number; simpl. destruct (is_sign c) eqn:Hsign; simpl.
  - destruct s as [|d s]; [done |]. simpl.
    apply not_elem_of_cons in Hs as [Hd Hs].
    rewrite ?bool_decide_eq_false_2 by done.
    rewrite ?bool_decide_eq_true_2 by done. simpl.
    destruct (isdigit d); simpl; [| done].
    by apply is_number_loop_spec.
  - rewrite ?Hsign. rewrite ?bool_decide_eq_false_2 by done.
    rewrite ?bool_decide_eq_true_2 by done. simpl.
    destruct (isdigit c); simpl; [| done].
    by apply is_number_loop_spec.
Qed.

Lemma forallb_isdigit s : forallb isdigit s = true ↔ Forall ascii_digit s.
Proof.
  rewrite forallb_forall, Forall_forall. split; intros H c Hc.
  - apply isdigit_ascii_digit, H. by apply list_elem_of_In.
  - apply isdigit_ascii_digit, H. by apply list_elem_of_In.
Qed.

Lemma numeral_after_sign s :
  numeral s ↔ after_sign s ≠ [] ∧ Forall ascii_digit (after_sign s).
Proof.
  split.
  - intros (sign & digits & -> & Hsign & Hne & Hall).
    destruct digits as [|d digits]; [done |].
    assert (is_sign d = false) as Hd.
    { apply isdigit_not_sign, isdigit_ascii_digit. by inversion Hall. }
    destruct Hsign as [-> | [-> | ->]]; simpl; rewrite ?Hd; done.
  - destruct s as [|c s]; simpl.
    { by intros [Hne _]. }
    destruct (is_sign c) eqn:Hc; intros [Hne Hall].
    + exists [c], s. split_and!; try done.
      apply is_sign_cases in Hc as [-> | ->]; unfold optional_sign; auto.
    + exists [], (c :: s). split_and!; try done. by left.
Qed.

Lemma is_number_numeral s rest :
  NUL ∉ s →
  is_number (s ++ NUL :: rest) = Ok true ↔ numeral s.
Proof.
  intros Hnul. rewrite (is_number_spec s rest Hnul), numeral_after_sign.
  rewrite <- forallb_isdigit.
  destruct (bool_decide_reflect (after_sign s ≠ [])) as [Hne | Hne]; simpl.
  - split; [intros [= ->]; by split | by intros [_ ->]].
  - split; [done | by intros [? _]].
Qed.

Lemma is_number_not_numeral s rest :
  NUL ∉ s → ¬ numeral s → is_number (s ++ NUL :: rest) = Ok false.
Proof.
  intros Hnul Hn. pose proof (is_number_numeral s rest Hnul) as Hiff.
  rewrite (is_number_spec s rest Hnul) in *.
  destruct (_ && _); [| done]. destruct Hn. by apply Hiff.
Qed.

(** C1.  On every C string [s], whatever follows its terminator in the
    array, [is_number] answers, and it answers 1 exactly when [s]
    matches [[+-]?[0-9]+].  It answers 0 on the empty string, on a
    lone sign, and as soon as a character that is not a digit (a blank
    before or after the digits included) occurs after the optional
    sign. *)
Theorem is_number_grammar (s a : list ascii) :
  holds s a →
  (∃ b, is_number a = Ok b ∧ (b = true ↔ numeral s)) ∧
  (s = [] → is_number a = Ok false) ∧
  (s = chars "+" ∨ s = chars "-" → is_number a = Ok false) ∧
  (∀ c, c ∈ after_sign s → ¬ ascii_digit c → is_number a = Ok false).
Proof.
  intros [Hnul [rest ->]]. rewrite (is_number_spec s rest Hnul).
  split_and!.
  - eexists; split; [done |].
    rewrite andb_true_iff, bool_decide_eq_true, forallb_isdigit.
    by rewrite numeral_after_sign.
  - by intros ->.
  - by intros [-> | ->].
  - intros c Hc Hnd. f_equal. apply andb_false_iff. right.
    apply not_true_is_false. rewrite forallb_isdigit, Forall_forall.
    intros Hall. by apply Hnd, Hall.
Qed.

Lemma is_number_grammar_witness :
  holds (chars "-42") (chars "-42" ++ NUL :: chars "xyz") ∧
  is_number (chars "-42" ++ NUL :: chars "xyz") = Ok true ∧
  is_number (chars " 42" ++ NUL :: chars "xyz") = Ok false.
Proof.
  assert (holds (chars "-42") (chars "-42" ++ NUL :: chars "xyz")) as H.
  { split; [| by eexists]. by apply (bool_decide_unpack _). }
  split; [exact H |].
  destruct (is_number_grammar _ _ H) as [(b & Hb & _) _].
  split; [| reflexivity].
  rewrite Hb. vm_compute in Hb. by injection Hb as <-.
Defined.


(** ** The bounded read *)

Lemma store_Ok a i c : (i < length a)%nat → store a i c = Ok (<[i:=c]> a).
Proof. intros H. unfold store. by rewrite decide_True. Qed.

Lemma store_middle pre x suf c :
  store (pre ++ x :: suf) (length pre) c = Ok (pre ++ c :: suf).
Proof.
  rewrite store_Ok by (rewrite length_app; simpl; lia).
  f_equal. induction pre as [|y pre IH]; simpl; [done | by rewrite IH].
Qed.

(** The loop of [fgets], started at the end of [pre] with room for [k]
    more characters: it consumes [m ≤ k] characters of the stream and
    puts them over the first [m] bytes that follow [pre]. *)
Lemma fgets_loop_spec k : ∀ pre suf stream,
  (k ≤ length suf)%nat →
  ∃ m eof,
    fgets_loop k (length pre) (pre ++ suf) stream =
      Ok ((length pre + m)%nat, pre ++ take m stream ++ drop m suf,
          drop m stream, eof) ∧
    (m ≤ k)%nat ∧ (m ≤ length stream)%nat ∧
    (eof = true → stream = [] ∨ (0 < m)%nat) ∧
    ((k ≤ length stream)%nat → LF ∉ take k stream → m = k ∧ eof = false).
Proof.
  induction k as [|k IH]; intros pre suf stream Hk.
  { exists 0%nat, false. simpl. rewrite Nat.add_0_r, !drop_0. split_and!; try done; lia. }
  destruct stream as [|c stream].
  { exists 0%nat, true. simpl. rewrite Nat.add_0_r, drop_0.
    split_and!; try done; try lia; auto. }
  destruct suf as [|x suf]; [simpl in Hk; lia |].
  simpl. rewrite store_middle. simpl.
  destruct (bool_decide (c = LF)) eqn:Hc.
  - exists 1%nat, false. simpl. rewrite ?take_0, ?drop_0. simpl.
    rewrite Nat.add_1_r. split_and!; try done; try lia.
    intros _ Hnl. apply bool_decide_eq_true in Hc as ->.
    exfalso. apply Hnl. by left.
  - destruct (IH (pre ++ [c]) suf stream) as (m & eof & Heq & Hm & Hlen & Heof & Hlong).
    { simpl in Hk. lia. }
    exists (S m), eof.
    rewrite length_app in Heq. simpl in Heq.
    rewrite <- !app_assoc in Heq. simpl in Heq.
    rewrite Nat.add_1_r in Heq. rewrite Heq. simpl.
    replace (length pre + S m)%nat with (S (length pre) + m)%nat by lia.
    split; [done |]. split; [lia |]. split; [lia |].
    split; [intros _; right; lia |].
    intros Hl Hnl. apply not_elem_of_cons in Hnl as [_ Hnl].
    destruct Hlong as [-> ->]; [lia | done | done].
Qed.

(** What [fgets] does for any array of at least [n] bytes. *)
Lemma fgets_spec a n stream :
  (0 < n ≤ length a)%nat →
  ∃ got a' m,
    fgets a n stream = Ok (got, a', drop m stream) ∧
    (m ≤ n - 1)%nat ∧ (m ≤ length stream)%nat ∧
    (got = true → a' = take m stream ++ NUL :: drop (S m) a) ∧
    (got = false → a' = a ∧ stream = []) ∧
    ((n - 1 ≤ length stream)%nat → LF ∉ take (n - 1) stream →
     got = true ∧ m = (n - 1)%nat).
Proof.
  intros [Hn Hlen].
  destruct (fgets_loop_spec (n - 1) [] a stream) as (m & eof & Heq & Hm & Hms & Heof & Hlong);
    [lia |].
  simpl in Heq. unfold fgets. rewrite Heq. simpl.
  destruct (eof && bool_decide (m = 0%nat)) eqn:Hnull.
  - apply andb_true_iff in Hnull as [-> Hm0%bool_decide_eq_true]. subst m.
    exists false, a, 0%nat. rewrite drop_0.
    split_and!; try done; try lia.
    + intros _. split; [done |]. destruct Heof as [? | ?]; [done | done | lia].
    + intros Hl Hnl. by destruct (Hlong Hl Hnl) as [_ ?].
  - assert (m < length a)%nat as Hma by lia.
    assert (∃ x suf, drop m a = x :: suf) as (x & suf & Hd).
    { destruct (drop m a) as [|x suf] eqn:Hd; [| by eauto].
      apply (f_equal length) in Hd. rewrite length_drop in Hd. simpl in Hd. lia. }
    assert (length (take m stream) = m) as Htl by (rewrite length_take; lia).
    pose proof (store_middle (take m stream) x suf NUL) as Hst.
    rewrite Htl in Hst. rewrite Hd, Hst. simpl.
    exists true, (take m stream ++ NUL :: suf), m.
    split_and!; try done.
    + intros _. do 2 f_equal.
      replace (S m) with (m + 1)%nat by lia.
      by rewrite <- (drop_drop a 1 m), Hd.
    + intros Hl Hnl. destruct (Hlong Hl Hnl) as [-> _]. done.
Qed.

(** A line with at least [n - 1] characters before its line feed
    fills the array: the first [n - 1] characters, then the terminator. *)
Lemma fgets_long a n stream :
  (1 < n)%nat → length a = n →
  (n - 1 ≤ length stream)%nat → LF ∉ take (n - 1) stream →
  fgets a n stream =
    Ok (true, take (n - 1) stream ++ [NUL], drop (n - 1) stream).
Proof.
  intros Hn Hlen Hl Hnl.
  destruct (fgets_spec a n stream) as (got & a' & m & Heq & _ & _ & Hgot & _ & Hlong);
    [lia |].
  destruct (Hlong Hl Hnl) as [-> ->]. rewrite Heq, (Hgot eq_refl).
  by rewrite drop_ge by lia.
Qed.

(** ** [atoi] on numerals, and the way back through [%d] *)

Lemma digit_value_range c : isdigit c = true → 0 ≤ digit_value c ≤ 9.
Proof.
  unfold isdigit, digit_value. simpl. intros [H1 H2]%andb_true_iff.
  apply N.leb_le in H1, H2. lia.
Qed.

Lemma digit_char_value c : isdigit c = true → digit_char (digit_value c) = c.
Proof.
  intros H. pose proof (digit_value_range c H) as Hr.
  unfold digit_char, digit_value in *.
  replace (48 + (Z.of_N (N_of_ascii c) - 48)) with (Z.of_N (N_of_ascii c)) by lia.
  by rewrite N2Z.id, ascii_N_embedding.
Qed.

Lemma atoi_digits_spec ds : ∀ acc stop rest,
  forallb isdigit ds = true → isdigit stop = false →
  atoi_digits acc (ds ++ stop :: rest) = Ok (digits_value acc ds).
Proof.
  induction ds as [|d ds IH]; intros acc stop rest Hds Hstop; simpl.
  - by rewrite Hstop.
  - apply andb_true_iff in Hds as [Hd Hds]. rewrite Hd. by apply IH.
Qed.

Lemma isdigit_not_space c : isdigit c = true → isspace c = false.
Proof.
  unfold isdigit, isspace. simpl. intros [H1 H2]%andb_true_iff.
  apply N.leb_le in H1, H2. apply orb_false_iff. split.
  - apply andb_false_iff. right. apply N.leb_gt. lia.
  - apply N.eqb_neq. lia.
Qed.

(** The value [atoi] works out on a text [sign ++ ds] that a character
    other than a digit follows. *)
Lemma atoi_value_signed sign ds stop rest :
  optional_sign sign → ds ≠ [] → forallb isdigit ds = true →
  isdigit stop = false →
  atoi_value (sign ++ ds ++ stop :: rest) =
    Ok (if bool_decide (sign = chars "-") then - digits_value 0 ds
        else digits_value 0 ds).
Proof.
  intros Hsign Hne Hds Hstop.
  destruct ds as [|d ds]; [done |].
  pose proof Hds as Hds'. simpl in Hds'. apply andb_true_iff in Hds' as [Hd Htl].
  destruct Hsign as [-> | [-> | ->]]; simpl.
  - rewrite (isdigit_not_space d Hd). unfold atoi_signed. simpl.
    rewrite !bool_decide_eq_false_2 by (intros ->; discriminate Hd).
    apply (atoi_digits_spec (d :: ds)); done.
  - unfold atoi_signed. simpl.
    by rewrite Hd, (atoi_digits_spec ds) by done.
  - unfold atoi_signed. simpl.
    by rewrite Hd, (atoi_digits_spec ds) by done.
Qed.


Lemma digits_value_snoc acc ds d :
  digits_value acc (ds ++ [d]) = 10 * digits_value acc ds + digit_value d.
Proof. unfold digits_value. by rewrite fold_left_app. Qed.

Lemma digits_value_ge ds : ∀ acc,
  forallb isdigit ds = true → 0 ≤ acc → acc ≤ digits_value acc ds.
Proof.
  induction ds as [|d ds IH]; intros acc Hds Hacc; simpl; [lia |].
  apply andb_true_iff in Hds as [Hd Hds].
  pose proof (digit_value_range d Hd).
  etrans; [| apply IH; [done | lia]]. lia.
Qed.

(** Digits that do not start with a zero are worth at least 1. *)
Lemma digits_value_pos d ds :
  forallb isdigit (d :: ds) = true → d ≠ "0"%char → 1 ≤ digits_value 0 (d :: ds).
Proof.
  intros Hds Hd. pose proof Hds as Hds'. simpl in Hds'.
  apply andb_true_iff in Hds' as [Hdd Htl].
  assert (1 ≤ digit_value d).
  { pose proof (digit_value_range d Hdd) as Hr.
    assert (digit_value d ≠ 0); [| lia].
    intros H0. apply Hd. rewrite <- (digit_char_value d Hdd), H0. reflexivity. }
  simpl. etrans; [| apply digits_value_ge; [done | lia]]. lia.
Qed.

Lemma proper_snoc ds d :
  ds ≠ [] → proper (ds ++ [d]) →
  proper ds ∧ isdigit d = true ∧ 1 ≤ digits_value 0 ds.
Proof.
  intros Hne [Hall Hhd]. rewrite forallb_app in Hall. simpl in Hall.
  apply andb_true_iff in Hall as [Hds [Hd _]%andb_true_iff].
  destruct ds as [|x ds]; [done |].
  assert (x ≠ "0"%char) as Hx.
  { destruct Hhd as [Hlen | Hhd].
    - rewrite length_app in Hlen. simpl in Hlen. lia.
    - simpl in Hhd. congruence. }
  split_and!; [split; [done |] | done | by apply digits_value_pos].
  right. simpl. congruence.
Qed.

Lemma render_digits_value ds : ∀ fuel acc,
  ds ≠ [] → proper ds → (length ds ≤ fuel)%nat →
  render_digits fuel (digits_value 0 ds) acc = ds ++ acc.
Proof.
  induction ds as [|d ds IH] using rev_ind; intros fuel acc Hne Hp Hfuel; [done |].
  rewrite length_app in Hfuel. simpl in Hfuel.
  destruct fuel as [|fuel]; [lia |].
  rewrite digits_value_snoc. simpl.
  destruct ds as [|x ds].
  - destruct Hp as [Hall _]. simpl in Hall. apply andb_true_iff in Hall as [Hd _].
    pose proof (digit_value_range d Hd) as Hr. simpl.
    replace (10 * 0 + digit_value d) with (digit_value d) by lia.
    rewrite Z.mod_small by lia. rewrite digit_char_value by done.
    by rewrite (proj2 (Z.ltb_lt _ _)) by lia.
  - destruct (proper_snoc (x :: ds) d) as (Hp' & Hd & Hpos); [done | done |].
    pose proof (digit_value_range d Hd) as Hr.
    set (v := digits_value 0 (x :: ds)) in *.
    replace ((10 * v + digit_value d) mod 10) with (digit_value d)
      by (rewrite Z.add_comm, Z.mul_comm, Z_mod_plus_full, Z.mod_small; lia).
    replace ((10 * v + digit_value d) / 10) with v
      by (rewrite Z.add_comm, Z.mul_comm, Z_div_plus_full, Z.div_small; lia).
    rewrite (proj2 (Z.ltb_ge _ _)) by lia.
    rewrite digit_char_value by done.
    rewrite IH; [by rewrite <- app_assoc | done | done | lia].
Qed.

(** The fuel of [render_nat] covers the digits of the number. *)
Lemma proper_length ds :
  ds ≠ [] → proper ds →
  Z.of_nat (length ds) ≤ 1 + Z.log2 (digits_value 0 ds).
Proof.
  induction ds as [|d ds IH] using rev_ind; intros Hne Hp; [done |].
  destruct ds as [|x ds].
  - pose proof (Z.log2_nonneg (digits_value 0 ([] ++ [d]))).
    change (length ([] ++ [d])) with 1%nat. lia.
  - destruct (proper_snoc (x :: ds) d) as (Hp' & Hd & Hpos); [done | done |].
    pose proof (digit_value_range d Hd) as Hr.
    rewrite digits_value_snoc, length_app. simpl length.
    specialize (IH ltac:(done) Hp'). simpl length in IH.
    set (v := digits_value 0 (x :: ds)) in *.
    assert (Z.log2 (2 * v) ≤ Z.log2 (10 * v + digit_value d)) as Hle
      by (apply Z.log2_le_mono; lia).
    rewrite Z.log2_double in Hle by lia. lia.
Qed.

Lemma render_nat_value ds :
  ds ≠ [] → proper ds → render_nat (digits_value 0 ds) = ds.
Proof.
  intros Hne Hp. unfold render_nat.
  rewrite render_digits_value; [by rewrite app_nil_r | done | done |].
  pose proof (proper_length ds Hne Hp).
  pose proof (Z.log2_nonneg (digits_value 0 ds)). lia.
Qed.

Lemma canonical_digits_proper ds :
  canonical_digits ds → ds ≠ [] ∧ proper ds.
Proof.
  intros (Hne & Hall & Hz). split; [done |]. split.
  - by apply forallb_isdigit.
  - destruct Hz as [-> | Hz]; [by left | by right].
Qed.

Lemma render_int_nonneg v : 0 ≤ v → render_int v = render_nat v.
Proof. intros H. unfold render_int. by rewrite (proj2 (Z.ltb_ge _ _)). Qed.

Lemma render_int_neg v : 0 < v → render_int (- v) = "-"%char :: render_nat v.
Proof.
  intros H. unfold render_int. rewrite (proj2 (Z.ltb_lt _ _)) by lia.
  by rewrite Z.opp_involutive.
Qed.

Lemma render_digits_length fuel : ∀ k n acc,
  0 ≤ n < 10 ^ Z.of_nat (S k) →
  (length (render_digits fuel n acc) ≤ S k + length acc)%nat.
Proof.
  induction fuel as [|fuel IH]; intros k n acc Hn; simpl; [lia |].
  destruct (Z.ltb_spec n 10) as [Hlt | Hge]; simpl; [lia |].
  destruct k as [|k]; [simpl in Hn; lia |].
  etrans; [apply (IH k) |]; [| simpl; lia].
  rewrite Nat2Z.inj_succ, Z.pow_succ_r in Hn by lia.
  split; [apply Z.div_pos; lia |].
  apply Z.div_lt_upper_bound; lia.
Qed.

(** An [int] prints in at most 11 characters. *)
Lemma render_int_length v : in_int_range v → (length (render_int v) ≤ 11)%nat.
Proof.
  unfold in_int_range, INT_MIN, INT_MAX, render_int, render_nat. intros Hv.
  destruct (Z.ltb_spec v 0); simpl length.
  - pose proof (render_digits_length (S (Z.to_nat (Z.log2 (- v)))) 9 (- v) []) as H1.
    simpl length in H1. cut (0 ≤ - v < 10 ^ Z.of_nat 10); [lia |].
    change (10 ^ Z.of_nat 10) with 10000000000. lia.
  - pose proof (render_digits_length (S (Z.to_nat (Z.log2 v))) 9 v []) as H1.
    simpl length in H1. cut (0 ≤ v < 10 ^ Z.of_nat 10); [lia |].
    change (10 ^ Z.of_nat 10) with 10000000000. lia.
Qed.

Lemma canonical_numeral_numeral s : canonical_numeral s → numeral s.
Proof.
  intros (sign & ds & -> & Hsign & (Hne & Hall & _) & _). by exists sign, ds.
Qed.

Lemma numeral_no_NUL s : numeral s → NUL ∉ s.
Proof.
  intros (sign & ds & -> & Hsign & _ & Hall) [Hin | Hin]%elem_of_app.
  - revert Hin. destruct Hsign as [-> | [-> | ->]]; by apply (bool_decide_unpack _).
  - rewrite Forall_forall in Hall. apply Hall, isdigit_ascii_digit in Hin. done.
Qed.

(** [atoi] on a numeral: the digits are read to the end and the value
    is returned when an [int] can hold it. *)
Lemma atoi_numeral sign ds rest :
  optional_sign sign → ds ≠ [] → Forall ascii_digit ds →
  let v := if bool_decide (sign = chars "-") then - digits_value 0 ds
           else digits_value 0 ds in
  atoi_value ((sign ++ ds) ++ NUL :: rest) = Ok v ∧
  (in_int_range v → atoi ((sign ++ ds) ++ NUL :: rest) = Ok v) ∧
  (¬ in_int_range v → atoi ((sign ++ ds) ++ NUL :: rest) = Undefined Overflow).
Proof.
  intros Hsign Hne Hall v.
  assert (atoi_value ((sign ++ ds) ++ NUL :: rest) = Ok v) as Hv.
  { rewrite <- app_assoc. apply atoi_value_signed; try done.
    by apply forallb_isdigit. }
  split; [done |]. unfold atoi. rewrite Hv. simpl. split; intros Hr.
  - by rewrite bool_decide_eq_true_2.
  - by rewrite bool_decide_eq_false_2.
Qed.

Lemma strip_plus_digits ds :
  ds ≠ [] → forallb isdigit ds = true → strip_plus ds = ds.
Proof.
  destruct ds as [|d ds]; [done |]. intros _ [Hd _]%andb_true_iff. simpl.
  rewrite bool_decide_eq_false_2; [done |]. intros ->. discriminate Hd.
Qed.

Lemma head_nonzero_pos ds :
  forallb isdigit ds = true → head ds ≠ Some "0"%char → ds ≠ [] →
  1 ≤ digits_value 0 ds.
Proof.
  destruct ds as [|d ds]; [done |]. intros Hall Hhd _.
  apply digits_value_pos; [done |]. simpl in Hhd. congruence.
Qed.

(** C5, amended.  A numeral in canonical form is accepted by
    [is_number]; [atoi] reads all its digits, and printing the value
    with [%d] gives the numeral back, a leading [+] dropped.  The
    value is what [atoi] returns whenever an [int] can hold it; when
    none can, the call has no defined result. *)
Theorem roundtrip_canonical (s rest : list ascii) :
  canonical_numeral s →
  is_number (s ++ NUL :: rest) = Ok true ∧
  ∃ v, atoi_value (s ++ NUL :: rest) = Ok v ∧
       render_int v = strip_plus s ∧
       (in_int_range v → atoi (s ++ NUL :: rest) = Ok v) ∧
       (¬ in_int_range v → atoi (s ++ NUL :: rest) = Undefined Overflow).
Proof.
  intros Hc. pose proof (canonical_numeral_numeral s Hc) as Hnum.
  split.
  { apply is_number_numeral; [by apply numeral_no_NUL | done]. }
  destruct Hc as (sign & ds & -> & Hsign & Hcd & Hneg).
  destruct (canonical_digits_proper ds Hcd) as [Hne Hp].
  destruct Hcd as (_ & Hall & Hz).
  destruct (atoi_numeral sign ds rest Hsign Hne Hall) as (Hv & Hin & Hout).
  eexists. split; [exact Hv |]. split; [| by split].
  assert (0 ≤ digits_value 0 ds) as H0
    by (apply digits_value_ge; [by apply forallb_isdigit | lia]).
  pose proof (render_nat_value ds Hne Hp) as Hrender.
  destruct Hsign as [-> | [-> | ->]].
  - rewrite bool_decide_eq_false_2 by done.
    rewrite render_int_nonneg, Hrender by done.
    symmetry. by apply strip_plus_digits, Hp.
  - rewrite bool_decide_eq_false_2 by done.
    by rewrite render_int_nonneg, Hrender by done.
  - rewrite bool_decide_eq_true_2 by done.
    assert (1 ≤ digits_value 0 ds).
    { apply head_nonzero_pos; [apply Hp | | done].
      destruct Hz as [Hz | Hz]; [| done]. destruct Hneg. by split. }
    by rewrite render_int_neg, Hrender by lia.
Qed.

Lemma roundtrip_canonical_witness :
  canonical_numeral (chars "+2147483647") ∧
  atoi (chars "+2147483647" ++ [NUL]) = Ok 2147483647 ∧
  render_int 2147483647 = chars "2147483647".
Proof.
  assert (canonical_numeral (chars "+2147483647")) as Hc.
  { exists (chars "+"), (chars "2147483647"). split_and!.
    - reflexivity.
    - right. by left.
    - split_and!; [done | | by right].
      apply forallb_isdigit. reflexivity.
    - by intros [? _]. }
  split; [exact Hc |].
  destruct (roundtrip_canonical _ [] Hc) as (_ & v & Hv & Hr & Hin & _).
  injection Hv as <-. split; [| exact Hr].
  apply Hin. by apply (bool_decide_unpack _).
Defined.

(** C5 as it is stated fails.  ["007"] is accepted and is worth 7,
    which prints as ["7"]; ["999999999999"] is accepted, [atoi] has no
    defined result on it, and no [int] at all prints as that text. *)
Lemma roundtrip_fails :
  (is_number (chars "007" ++ [NUL]) = Ok true ∧
   atoi (chars "007" ++ [NUL]) = Ok 7 ∧
   render_int 7 ≠ strip_plus (chars "007")) ∧
  (is_number (chars "999999999999" ++ [NUL]) = Ok true ∧
   atoi (chars "999999999999" ++ [NUL]) = Undefined Overflow ∧
   ∀ v, in_int_range v → render_int v ≠ strip_plus (chars "999999999999")).
Proof.
  split; split_and!; try reflexivity.
  - intros H. discriminate H.
  - intros v Hv Heq. apply render_int_length in Hv.
    rewrite Heq in Hv. simpl in Hv. lia.
Qed.

(** ** The safe program, path by path *)

(** A line shorter than the room left is read whole, line feed
    included, and terminated. *)
Lemma fgets_loop_line l : ∀ k pre suf rest,
  LF ∉ l → (length l < k)%nat → (k ≤ length suf)%nat →
  fgets_loop k (length pre) (pre ++ suf) (l ++ LF :: rest) =
    Ok ((length pre + length l + 1)%nat,
        pre ++ l ++ LF :: drop (length l + 1) suf, rest, false).
Proof.
  induction l as [|c l IH]; intros k pre suf rest Hnl Hk Hsuf;
    (destruct k as [|k]; [simpl in Hk; lia |]);
    (destruct suf as [|x suf]; [simpl in Hsuf; lia |]); simpl.
  - rewrite store_middle. simpl. rewrite drop_0.
    by rewrite Nat.add_0_r, Nat.add_1_r.
  - apply not_elem_of_cons in Hnl as [Hc Hnl].
    rewrite store_middle. simpl. rewrite bool_decide_eq_false_2 by done.
    specialize (IH k (pre ++ [c]) suf rest Hnl).
    rewrite length_app, <- !app_assoc in IH. simpl in IH.
    rewrite Nat.add_1_r in IH.
    rewrite IH by (simpl in *; lia).
    by replace (S (length pre) + length l + 1)%nat
      with (length pre + S (length l) + 1)%nat by lia.
Qed.

Lemma fgets_line a n l rest :
  LF ∉ l → (length l + 2 ≤ n)%nat → (n ≤ length a)%nat →
  fgets a n (l ++ LF :: rest) =
    Ok (true, l ++ LF :: NUL :: drop (length l + 2) a, rest).
Proof.
  intros Hnl Hn Hlen. unfold fgets.
  pose proof (fgets_loop_line l (n - 1) [] a rest) as Hloop.
  simpl in Hloop. rewrite Hloop by (done || lia). simpl.
  assert (∃ x suf, drop (length l + 1) a = x :: suf) as (x & suf & Hd).
  { destruct (drop (length l + 1) a) as [|x suf] eqn:Hd; [| by eauto].
    apply (f_equal length) in Hd. rewrite length_drop in Hd. simpl in Hd. lia. }
  rewrite Hd.
  pose proof (store_middle (l ++ [LF]) x suf NUL) as Hst.
  rewrite length_app, <- !app_assoc in Hst. simpl in Hst.
  rewrite Hst. simpl. do 5 f_equal.
  replace (length l + 2)%nat with ((length l + 1) + 1)%nat by lia.
  by rewrite <- drop_drop, Hd.
Qed.

Lemma strcspn_line l rest :
  NUL ∉ l → LF ∉ l → strcspn (l ++ LF :: rest) [LF] = Ok (length l).
Proof.
  intros Hnul Hnl. induction l as [|c l IH]; simpl.
  - done.
  - apply not_elem_of_cons in Hnul as [Hc0 Hnul].
    apply not_elem_of_cons in Hnl as [Hc1 Hnl].
    rewrite bool_decide_eq_false_2 by done.
    rewrite bool_decide_eq_false_2
      by (intros [-> | H]%elem_of_cons; [done | by apply elem_of_nil in H]).
    simpl. by rewrite IH.
Qed.

Lemma write_fallback_spec buffer :
  (4 ≤ length buffer)%nat →
  write_fallback buffer = Ok (chars "1337" ++ drop 4 buffer).
Proof.
  destruct buffer as [|b0 [|b1 [|b2 [|b3 buffer]]]]; simpl; try lia. intros _.
  unfold write_fallback.
  repeat (rewrite store_Ok by (simpl; lia); simpl). done.
Qed.

(** The program up to the call of [atoi], when [fgets] has stored the
    line [l] and its line feed: the line feed is overwritten, the text
    is checked, and the fallback digits are written when the check
    fails. *)
Lemma safe_main_line draw buffer l rest :
  length buffer = 100%nat → NUL ∉ l → LF ∉ l → (length l ≤ 98)%nat →
  let stripped := l ++ NUL :: NUL :: drop (length l + 2) buffer in
  safe_main draw buffer (l ++ LF :: rest) =
    valid ← is_number stripped;
    if valid : bool then
      guess ← atoi stripped; Ok (report guess (generate_secret draw) [])
    else
      guess ← atoi (chars "1337" ++ drop 4 stripped);
      Ok (report guess (generate_secret draw) [invalid_input]).
Proof.
  intros Hlen Hnul Hnl Hl stripped. unfold safe_main.
  rewrite fgets_line by (done || lia). simpl.
  rewrite strcspn_line by done. simpl.
  rewrite store_middle. simpl. fold stripped.
  destruct (is_number stripped) as [[] |]; simpl; try done.
  rewrite write_fallback_spec; [done |].
  unfold stripped. rewrite length_app. simpl. rewrite length_drop. lia.
Qed.

(** On a line that is a numeral nothing is reported and the guess is
    what [atoi] makes of the line. *)
Lemma safe_main_numeral draw buffer l rest :
  length buffer = 100%nat → numeral l → (length l ≤ 98)%nat →
  safe_main draw buffer (l ++ LF :: rest) =
    guess ← atoi (l ++ NUL :: NUL :: drop (length l + 2) buffer);
    Ok (report guess (generate_secret draw) []).
Proof.
  intros Hlen Hnum Hl.
  pose proof (numeral_no_NUL l Hnum) as Hnul.
  assert (LF ∉ l) as Hnl.
  { destruct Hnum as (sign & ds & -> & Hsign & _ & Hall).
    intros [Hin | Hin]%elem_of_app.
    - revert Hin. destruct Hsign as [-> | [-> | ->]]; by apply (bool_decide_unpack _).
    - rewrite Forall_forall in Hall. apply Hall, isdigit_ascii_digit in Hin. done. }
  rewrite safe_main_line by done. simpl.
  by rewrite (proj2 (is_number_numeral l _ Hnul) Hnum).
Qed.

(** On a line that is not a numeral the error is reported and [atoi]
    is given the four fallback digits followed by whatever the array
    holds from index 4 on. *)
Lemma safe_main_invalid draw buffer l rest :
  length buffer = 100%nat → NUL ∉ l → LF ∉ l → (length l ≤ 98)%nat →
  ¬ numeral l →
  safe_main draw buffer (l ++ LF :: rest) =
    guess ← atoi (chars "1337" ++
                  drop 4 (l ++ NUL :: NUL :: drop (length l + 2) buffer));
    Ok (report guess (generate_secret draw) [invalid_input]).
Proof.
  intros Hlen Hnul Hnl Hl Hnum.
  rewrite safe_main_line by done. simpl.
  by rewrite (is_number_not_numeral l _ Hnul Hnum).
Qed.

(** At the end of the input [fgets] stores nothing: after the report
    the program goes on with the bytes the array happened to hold. *)
Lemma safe_main_eof draw buffer :
  safe_main draw buffer [] =
    k ← strcspn buffer [LF];
    buffer ← store buffer k NUL;
    valid ← is_number buffer;
    if valid : bool then
      guess ← atoi buffer; Ok (report guess (generate_secret draw) [read_error])
    else
      buffer ← write_fallback buffer;
      guess ← atoi buffer;
      Ok (report guess (generate_secret draw) [read_error; invalid_input]).
Proof.
  unfold safe_main. simpl.
  destruct (strcspn buffer [LF]) as [k|]; simpl; [| done].
  destruct (store buffer k NUL) as [b|]; simpl; [| done].
  destruct (is_number b) as [[]|]; simpl; try done.
  by destruct (write_fallback b).
Qed.

(** Whatever path is taken, an execution that ends was reported by
    [report], and the standard error received nothing but the two
    messages of the program. *)
Lemma safe_main_report draw buffer stdin r :
  safe_main draw buffer stdin = Ok r →
  ∃ g err, r = report g (generate_secret draw) err ∧
           err ⊆ [read_error; invalid_input].
Proof.
  unfold safe_main. intros H.
  destruct (fgets buffer 100 stdin) as [[[got b] rest]|]; simpl in H; [| done].
  destruct (strcspn b [LF]) as [k|]; simpl in H; [| done].
  destruct (store b k NUL) as [b1|]; simpl in H; [| done].
  destruct (is_number b1) as [[]|]; simpl in H; [| | done].
  - destruct (atoi b1); simpl in H; [| done]. injection H as <-.
    eexists _, _. split; [done |].
    destruct got; intros x Hx; [by apply elem_of_nil in Hx |].
    apply list_elem_of_singleton in Hx as ->. by left.
  - destruct (write_fallback b1) as [b2|]; simpl in H; [| done].
    destruct (atoi b2); simpl in H; [| done]. injection H as <-.
    eexists _, _. split; [done |].
    destruct got; intros x Hx; simpl in Hx; [| done].
    apply list_elem_of_singleton in Hx as ->. right. by left.
Qed.

Lemma vuln_main_report draw buffer stdin r :
  vuln_main draw buffer stdin = Ok r →
  ∃ g, r = report g (generate_secret draw) [].
Proof.
  unfold vuln_main. intros H.
  destruct (scanf_s buffer stdin) as [[b rest]|]; simpl in H; [| done].
  destruct (atoi b); simpl in H; [| done]. injection H as <-. eauto.
Qed.

(** ** The secret and the comparison *)

Lemma generate_secret_mod draw : 0 ≤ draw → generate_secret draw = draw mod 100 + 1.
Proof. intros H. unfold generate_secret. by rewrite Z.rem_mod_nonneg by lia. Qed.

(** C6.  [rand()] returns an [int] that is not negative; whatever it
    draws, [rand() % 100 + 1] lies between 1 and 100 (and the sum does
    not leave the range of [int]), and that is the secret of every
    execution of either program. *)
Theorem generate_secret_range (draw : Z) :
  0 ≤ draw ≤ INT_MAX →
  1 ≤ generate_secret draw ≤ 100 ∧
  (∀ buffer stdin r,
     safe_main draw buffer stdin = Ok r ∨ vuln_main draw buffer stdin = Ok r →
     secret r = generate_secret draw).
Proof.
  intros [Hlo Hhi]. split.
  - rewrite generate_secret_mod by done.
    pose proof (Z.mod_pos_bound draw 100). lia.
  - intros buffer stdin r [H | H].
    + by apply safe_main_report in H as (g & err & -> & _).
    + by apply vuln_main_report in H as (g & ->).
Qed.

Lemma generate_secret_range_witness :
  0 ≤ 2147483647 ≤ INT_MAX ∧ 1 ≤ generate_secret 2147483647 ≤ 100.
Proof.
  assert (0 ≤ 2147483647 ≤ INT_MAX) as H by (unfold INT_MAX; lia).
  split; [exact H |]. exact (proj1 (generate_secret_range 2147483647 H)).
Defined.

(** C7.  The three branches of the comparison are taken exactly when
    the guess is below, above, or equal to the secret; a number
    compared with itself is [Correct]; exchanging the two numbers
    exchanges [TooSmall] and [TooLarge]. *)
Theorem compare_spec (guess secret : Z) :
  (compare guess secret = TooSmall ↔ guess < secret) ∧
  (compare guess secret = TooLarge ↔ guess > secret) ∧
  (compare guess secret = Correct ↔ guess = secret) ∧
  compare guess guess = Correct ∧
  compare secret guess = flip (compare guess secret).
Proof.
  unfold compare.
  rewrite !Z.gtb_ltb, Z.ltb_irrefl.
  destruct (Z.ltb_spec guess secret), (Z.ltb_spec secret guess);
    simpl; split_and!; try done; try lia; split; (done || lia).
Qed.

(** C3.  The fallback is not one fixed guess.  The line ["abcd9"] is
    rejected and reported, the digits 1337 are written over its first
    four characters, no terminator follows them, and [atoi] reads on
    into what is left of the line: the guess is 13379.  On ["abc"] the
    guess is 1337. *)
Theorem fallback_not_fixed (draw : Z) :
  is_number (chars "abcd9" ++ [NUL]) = Ok false ∧
  safe_main draw (array_of 100 EmptyString) (line "abcd9") =
    Ok (report 13379 (generate_secret draw) [invalid_input]) ∧
  safe_main draw (array_of 100 EmptyString) (line "abc") =
    Ok (report 1337 (generate_secret draw) [invalid_input]).
Proof.
  split; [reflexivity |]. unfold line.
  assert (∀ s, is_number (chars s ++ [NUL]) = Ok false → ¬ numeral (chars s)) as Hnot.
  { intros s Hs Hnum. pose proof (numeral_no_NUL _ Hnum) as Hnul.
    apply (is_number_numeral _ [] Hnul) in Hnum. congruence. }
  split.
  - rewrite safe_main_invalid; [reflexivity | reflexivity | | | simpl; lia |].
    + by apply (bool_decide_unpack _).
    + by apply (bool_decide_unpack _).
    + by apply Hnot.
  - rewrite safe_main_invalid; [reflexivity | reflexivity | | | simpl; lia |].
    + by apply (bool_decide_unpack _).
    + by apply (bool_decide_unpack _).
    + by apply Hnot.
Qed.

(** C4.  At the end of the input the error is reported and the
    program neither stops nor writes the fallback: the guess is read
    out of the bytes the array happened to hold, 42 when they spell
    ["42"], 7 when they spell ["7"]. *)
Theorem eof_uses_stale_buffer (draw : Z) :
  safe_main draw (array_of 100 "42") [] =
    Ok (report 42 (generate_secret draw) [read_error]) ∧
  safe_main draw (array_of 100 "7") [] =
    Ok (report 7 (generate_secret draw) [read_error]).
Proof. split; rewrite safe_main_eof; reflexivity. Qed.

(** What an empty line leads to, whatever the array held: the error
    of an invalid number is the only one reported, and [atoi] is given
    the fallback digits followed by the bytes that were in the array
    from index 4 on. *)
Lemma safe_main_empty_line draw buffer rest :
  length buffer = 100%nat →
  safe_main draw buffer (LF :: rest) =
    guess ← atoi (chars "1337" ++ drop 4 buffer);
    Ok (report guess (generate_secret draw) [invalid_input]).
Proof.
  intros Hlen.
  change (LF :: rest) with ([] ++ LF :: rest).
  rewrite (safe_main_invalid draw buffer [] rest); try done.
  - simpl. do 6 (destruct buffer as [|? buffer]; [done |]). done.
  - by apply (bool_decide_unpack _).
  - by apply (bool_decide_unpack _).
  - simpl. lia.
  - intros Hnum%numeral_after_sign. by destruct Hnum.
Qed.

(** C9.  A line that is only a line feed is reported as an invalid
    number, not as a read error, and the fallback digits are written;
    the guess is 1337 when a byte that is not a digit follows them in
    the array, and it is 13379 when the byte that was there, which the
    program never wrote, is a 9. *)
Theorem empty_line_fallback (draw : Z) :
  safe_main draw (array_of 100 EmptyString) [LF] =
    Ok (report 1337 (generate_secret draw) [invalid_input]) ∧
  safe_main draw (array_of 100 "....9") [LF] =
    Ok (report 13379 (generate_secret draw) [invalid_input]).
Proof. split; rewrite safe_main_empty_line; reflexivity. Qed.

(** ** The program without validation *)

Lemma skip_space_blanks blanks t rest :
  Forall (λ c, isspace c = true) blanks → token t →
  skip_space (blanks ++ t ++ rest) = t ++ rest.
Proof.
  intros Hb [Hne Ht]. induction Hb as [|b blanks Hbs _ IH]; simpl.
  - destruct t as [|c t]; [done |]. simpl.
    apply Forall_cons in Ht as [[Hc _] _]. by rewrite Hc.
  - by rewrite Hbs.
Qed.

(** The characters of a token are stored one after the other and
    terminated, as long as the array has room for them. *)
Lemma scanf_s_loop_spec t : ∀ pre suf rest,
  Forall (λ c, isspace c = false ∧ c ≠ NUL) t →
  (length t < length suf)%nat →
  rest = [] ∨ (∃ c rest', rest = c :: rest' ∧ isspace c = true) →
  scanf_s_loop (length pre) (pre ++ suf) (t ++ rest) =
    Ok (pre ++ t ++ NUL :: drop (S (length t)) suf, rest).
Proof.
  induction t as [|c t IH]; intros pre suf rest Ht Hlen Hrest.
  - destruct suf as [|x suf]; [simpl in Hlen; lia |]. simpl. rewrite drop_0.
    destruct Hrest as [-> | (c & rest' & -> & Hc)]; simpl.
    + by rewrite store_middle.
    + by rewrite Hc, store_middle.
  - destruct suf as [|x suf]; [simpl in Hlen; lia |].
    apply Forall_cons in Ht as [[Hc _] Ht]. simpl. rewrite Hc, store_middle. simpl.
    specialize (IH (pre ++ [c]) suf rest Ht).
    rewrite length_app, <- !app_assoc in IH. simpl in IH.
    rewrite Nat.add_1_r in IH. apply IH; [simpl in Hlen; lia | done].
Qed.

Lemma scanf_s_token buffer blanks t rest :
  Forall (λ c, isspace c = true) blanks → token t →
  (length t < length buffer)%nat →
  rest = [] ∨ (∃ c rest', rest = c :: rest' ∧ isspace c = true) →
  scanf_s buffer (blanks ++ t ++ rest) =
    Ok (t ++ NUL :: drop (S (length t)) buffer, rest).
Proof.
  intros Hb Ht Hlen Hrest. unfold scanf_s.
  rewrite skip_space_blanks by done.
  destruct Ht as [Hne Ht].
  destruct (t ++ rest) as [|c tr] eqn:Htr.
  { by destruct t. }
  rewrite <- Htr. by apply (scanf_s_loop_spec t [] buffer rest).
Qed.





(** ** Further properties: what [atoi] can and cannot do *)

Lemma generate_secret_bounds draw :
  0 ≤ draw ≤ INT_MAX → 1 ≤ generate_secret draw ≤ 100.
Proof.
  intros [Hlo _]. rewrite generate_secret_mod by done.
  pose proof (Z.mod_pos_bound draw 100). lia.
Qed.

(** In an array that holds a terminator [atoi] stops at it at the
    latest: it never reads past the end. *)
Lemma atoi_digits_terminated q : ∀ acc tail,
  ∃ v, atoi_digits acc (q ++ NUL :: tail) = Ok v.
Proof.
  induction q as [|c q IH]; intros acc tail; simpl; [by eexists |].
  destruct (isdigit c); [apply IH | by eexists].
Qed.

Lemma atoi_signed_terminated q tail :
  ∃ v, atoi_signed (q ++ NUL :: tail) = Ok v.
Proof.
  destruct q as [|c q]; [by eexists |].
  unfold atoi_signed. simpl.
  destruct (bool_decide (c = "-"%char)).
  { destruct (atoi_digits_terminated q 0 tail) as [v ->]. by eexists. }
  destruct (bool_decide (c = "+"%char)).
  { apply atoi_digits_terminated. }
  apply (atoi_digits_terminated (c :: q)).
Qed.

Lemma atoi_value_terminated q tail :
  ∃ v, atoi_value (q ++ NUL :: tail) = Ok v.
Proof.
  induction q as [|c q IH]; simpl.
  - apply (atoi_signed_terminated []).
  - destruct (isspace c); [apply IH | apply (atoi_signed_terminated (c :: q))].
Qed.

Lemma atoi_terminated q tail :
  atoi (q ++ NUL :: tail) ≠ Undefined OutOfBounds.
Proof.
  unfold atoi. destruct (atoi_value_terminated q tail) as [v ->]. simpl.
  by destruct (bool_decide (in_int_range v)).
Qed.

(** ** Further properties of vuln.c *)

Lemma store_end a c : store a (length a) c = Undefined OutOfBounds.
Proof. unfold store. rewrite decide_False; [done | lia]. Qed.

(** A token with as many characters as the array has bytes, or more,
    is stored past the end of the array. *)
Lemma scanf_s_loop_overflow t : ∀ pre suf rest,
  Forall (λ c, isspace c = false ∧ c ≠ NUL) t →
  (length suf ≤ length t)%nat →
  scanf_s_loop (length pre) (pre ++ suf) (t ++ rest) = Undefined OutOfBounds.
Proof.
  induction t as [|c t IH]; intros pre suf rest Ht Hlen.
  - destruct suf as [|x suf]; [| simpl in Hlen; lia].
    rewrite app_nil_r. simpl.
    destruct rest as [|c rest]; simpl; [by rewrite store_end |].
    destruct (isspace c); by rewrite store_end.
  - apply Forall_cons in Ht as [[Hc _] Ht]. simpl. rewrite Hc.
    destruct suf as [|x suf].
    + by rewrite app_nil_r, store_end.
    + rewrite store_middle. simpl.
      specialize (IH (pre ++ [c]) suf rest Ht).
      rewrite length_app, <- !app_assoc in IH. simpl in IH.
      rewrite Nat.add_1_r in IH. apply IH. simpl in Hlen. lia.
Qed.

(** X1.  The unbounded read of vuln.c leaves the 32-byte array exactly
    when the token has 32 characters or more: every such token drives
    a store past the end of the array, and no shorter token makes the
    program touch a byte outside it. *)
Theorem vuln_main_overflow (draw : Z) (buffer blanks t rest : list ascii) :
  length buffer = 32%nat →
  Forall (λ c, isspace c = true) blanks →
  token t →
  rest = [] ∨ (∃ c rest', rest = c :: rest' ∧ isspace c = true) →
  vuln_main draw buffer (blanks ++ t ++ rest) = Undefined OutOfBounds ↔
  (32 ≤ length t)%nat.
Proof.
  intros Hlen Hb Ht Hrest. split.
  - intros Hub. destruct (decide (32 ≤ length t)%nat) as [| Hshort]; [done |].
    exfalso. revert Hub. unfold vuln_main.
    rewrite scanf_s_token by (done || lia). simpl.
    pose proof (atoi_terminated t (drop (S (length t)) buffer)) as Hat.
    destruct (atoi _) as [g | []]; simpl; done.
  - intros Hlong. unfold vuln_main, scanf_s.
    rewrite skip_space_blanks by done.
    destruct Ht as [Hne Ht].
    destruct (t ++ rest) as [|c tr] eqn:Htr; [by destruct t |].
    rewrite <- Htr.
    pose proof (scanf_s_loop_overflow t [] buffer rest Ht) as Hov.
    simpl in Hov. rewrite Hov by lia. done.
Qed.

Lemma vuln_main_overflow_witness :
  vuln_main 49 (array_of 32 "stale") (replicate 32 "A"%char ++ [LF]) =
    Undefined OutOfBounds.
Proof.
  refine (proj2 (vuln_main_overflow 49 (array_of 32 "stale") []
                   (replicate 32 "A"%char) [LF] eq_refl _ _ _) _).
  - constructor.
  - split; [done |]. by apply (bool_decide_unpack _).
  - right. by exists LF, [].
  - simpl. lia.
Defined.

(** X2.  When the input holds no token (it is empty, or blank to its
    end) [scanf] stores nothing and its result is not looked at: the
    guess is what [atoi] finds in the bytes the array happened to
    hold, and nothing is reported. *)
Theorem vuln_main_no_token (draw : Z) (buffer blanks : list ascii) :
  Forall (λ c, isspace c = true) blanks →
  vuln_main draw buffer blanks =
    (guess ← atoi buffer; Ok (report guess (generate_secret draw) [])).
Proof.
  intros Hb. unfold vuln_main, scanf_s.
  assert (skip_space blanks = []) as ->; [| done].
  induction Hb as [|c blanks Hc _ IH]; simpl; [done | by rewrite Hc].
Qed.

Lemma vuln_main_no_token_witness :
  vuln_main 49 (array_of 32 "77") (chars "  " ++ [LF]) = Ok (report 77 50 []).
Proof.
  rewrite (vuln_main_no_token 49 (array_of 32 "77") (chars "  " ++ [LF])).
  - reflexivity.
  - repeat constructor.
Defined.

(** X3.  vuln.c takes a numeral followed by anything that does not
    begin with a digit for the numeral alone: the guess is the value
    of the leading digits with their sign, whenever an [int] can hold
    it, and nothing is reported. *)
Theorem vuln_main_numeral_prefix
    (draw : Z) (buffer blanks sign ds junk rest : list ascii) :
  length buffer = 32%nat →
  Forall (λ c, isspace c = true) blanks →
  optional_sign sign → ds ≠ [] → Forall ascii_digit ds →
  Forall (λ c, isspace c = false ∧ c ≠ NUL) junk →
  (∀ c, head junk = Some c → isdigit c = false) →
  (length (sign ++ ds ++ junk) ≤ 31)%nat →
  rest = [] ∨ (∃ c rest', rest = c :: rest' ∧ isspace c = true) →
  let v := if bool_decide (sign = chars "-") then - digits_value 0 ds
           else digits_value 0 ds in
  in_int_range v →
  vuln_main draw buffer (blanks ++ (sign ++ ds ++ junk) ++ rest) =
    Ok (report v (generate_secret draw) []).
Proof.
  intros Hlen Hb Hsign Hne Hall Hjunk Hhead Hl Hrest v Hv.
  assert (Forall (λ c, isspace c = false ∧ c ≠ NUL) (sign ++ ds)) as Hsd.
  { apply Forall_app. split.
    - destruct Hsign as [-> | [-> | ->]]; repeat constructor; done.
    - eapply Forall_impl; [exact Hall |]. intros c Hc%isdigit_ascii_digit.
      split; [by apply isdigit_not_space | intros ->; discriminate Hc]. }
  assert (token (sign ++ ds ++ junk)) as Ht.
  { split; [destruct sign, ds; done |].
    rewrite app_assoc. by apply Forall_app. }
  unfold vuln_main. rewrite scanf_s_token by (done || lia). simpl.
  set (tail := drop _ buffer).
  assert (∃ stop more, (junk ++ NUL :: tail) = stop :: more ∧ isdigit stop = false)
    as (stop & more & Hstop & Hnd).
  { destruct junk as [|j junk]; simpl; [by exists NUL, tail |].
    exists j, (junk ++ NUL :: tail). split; [done |]. by apply Hhead. }
  unfold atoi.
  rewrite <- !app_assoc, Hstop.
  rewrite atoi_value_signed; [| done | done | by apply forallb_isdigit | done].
  simpl. fold v. by rewrite bool_decide_eq_true_2.
Qed.

Lemma vuln_main_numeral_prefix_witness :
  vuln_main 49 (array_of 32 "stale") (chars " -12abc" ++ [LF]) =
    Ok (report (-12) 50 []).
Proof.
  refine (vuln_main_numeral_prefix 49 (array_of 32 "stale") (chars " ")
            (chars "-") (chars "12") (chars "abc") [LF]
            eq_refl _ _ _ _ _ _ _ _ _).
  - repeat constructor.
  - right. by right.
  - done.
  - apply forallb_isdigit. reflexivity.
  - repeat constructor; done.
  - by intros c [= <-].
  - simpl. lia.
  - right. by exists LF, [].
  - by apply (bool_decide_unpack _).
Defined.

(** ** Further properties of safe.c *)

Lemma atoi_fallback_digits tail :
  atoi (chars "1337" ++ tail) =
    v ← atoi_digits 1337 tail;
    if bool_decide (in_int_range v) then Ok v else Undefined Overflow.
Proof. reflexivity. Qed.

(** X4.  When the fallback does give 1337: the rejected line has at
    least three characters and its fifth character, if it has one, is
    not a digit.  The byte that follows the four digits written is
    then the terminator or that character. *)
Theorem safe_main_fallback_1337 (draw : Z) (buffer l rest : list ascii) :
  length buffer = 100%nat → NUL ∉ l → LF ∉ l → ¬ numeral l →
  (3 ≤ length l ≤ 98)%nat →
  (∀ c, l !! 4%nat = Some c → isdigit c = false) →
  safe_main draw buffer (l ++ LF :: rest) =
    Ok (report 1337 (generate_secret draw) [invalid_input]).
Proof.
  intros Hlen Hnul Hnl Hnum [Hl3 Hl98] H5.
  rewrite safe_main_invalid by done.
  set (tail := drop (length l + 2) buffer).
  assert (∃ stop more, drop 4 (l ++ NUL :: NUL :: tail) = stop :: more ∧
                       isdigit stop = false) as (stop & more & -> & Hstop).
  { destruct l as [|c0 [|c1 [|c2 [|c3 l]]]]; simpl in Hl3; try lia.
    - by eexists _, _.
    - destruct l as [|c4 l]; simpl; [by eexists _, _ |].
      eexists _, _. split; [done |]. by apply H5. }
  rewrite atoi_fallback_digits. simpl. by rewrite Hstop.
Qed.

Lemma safe_main_fallback_1337_witness :
  safe_main 49 (array_of 100 "99999999") (line "12 4 5") =
    Ok (report 1337 50 [invalid_input]).
Proof.
  refine (safe_main_fallback_1337 49 (array_of 100 "99999999") (chars "12 4 5") []
            eq_refl _ _ _ _ _).
  - by apply (bool_decide_unpack _).
  - by apply (bool_decide_unpack _).
  - intros Hnum. pose proof (numeral_no_NUL _ Hnum) as Hnul.
    apply (is_number_numeral _ [] Hnul) in Hnum. discriminate Hnum.
  - simpl. lia.
  - by intros c [= <-].
Defined.

(** The value that [atoi] accumulates over at most [length q] further
    digits. *)
Lemma atoi_digits_bound q : ∀ acc tail,
  0 ≤ acc →
  ∃ v, atoi_digits acc (q ++ NUL :: tail) = Ok v ∧
       acc ≤ v < (acc + 1) * 10 ^ Z.of_nat (length q).
Proof.
  induction q as [|c q IH]; intros acc tail Hacc.
  { exists acc. split; [done |]. simpl. lia. }
  cbn [app atoi_digits length]. rewrite Nat2Z.inj_succ, Z.pow_succ_r by lia.
  assert (1 ≤ 10 ^ Z.of_nat (length q)) by (apply Z.pow_le_mono_r with (b := 0); lia).
  destruct (isdigit c) eqn:Hc.
  - pose proof (digit_value_range c Hc) as Hd.
    destruct (IH (10 * acc + digit_value c) tail) as (v & Hv & Hlo & Hhi); [lia |].
    exists v. split; [done |]. split; [lia |]. nia.
  - exists acc. split; [done |]. nia.
Qed.

(** X5.  A rejected line of 3 to 9 characters never wins: the
    execution ends, the invalid number is the only error reported,
    the guess is 1337 followed by at most five digits of the line, and
    the verdict is "too much". *)
Theorem safe_main_invalid_too_much (draw : Z) (buffer l rest : list ascii) :
  0 ≤ draw ≤ INT_MAX →
  length buffer = 100%nat → NUL ∉ l → LF ∉ l → ¬ numeral l →
  (3 ≤ length l ≤ 9)%nat →
  ∃ g, safe_main draw buffer (l ++ LF :: rest) =
         Ok (report g (generate_secret draw) [invalid_input]) ∧
       1337 ≤ g ≤ 133799999 ∧
       stdout (report g (generate_secret draw) [invalid_input]) !! 1%nat =
         Some ("too much" ++ nl)%string.
Proof.
  intros Hdraw Hlen Hnul Hnl Hnum [Hl3 Hl9].
  pose proof (generate_secret_bounds draw Hdraw) as Hs.
  rewrite safe_main_invalid by (done || lia).
  set (tail := drop (length l + 2) buffer).
  assert (∃ q tail', drop 4 (l ++ NUL :: NUL :: tail) = q ++ NUL :: tail' ∧
                     (length q ≤ 5)%nat) as (q & tail' & -> & Hq).
  { destruct (decide (length l = 3%nat)) as [H3 | H3].
    - exists [], tail. split; [| simpl; lia].
      destruct l as [|c0 [|c1 [|c2 [|c3 l]]]]; simpl in H3; try lia. done.
    - exists (drop 4 l), (NUL :: tail). split; [by rewrite drop_app_le by lia |].
      rewrite length_drop. lia. }
  rewrite atoi_fallback_digits.
  destruct (atoi_digits_bound q 1337 tail') as (v & -> & Hlo & Hhi); [lia |].
  assert (10 ^ Z.of_nat (length q) ≤ 10 ^ 5)
    by (apply Z.pow_le_mono_r; lia).
  assert (in_int_range v) by (unfold in_int_range, INT_MIN, INT_MAX; lia).
  simpl. rewrite bool_decide_eq_true_2 by done.
  exists v. split; [done |]. split; [lia |].
  simpl. unfold compare.
  rewrite (proj2 (Z.ltb_ge _ _)) by lia.
  by rewrite (proj2 (Z.gtb_gt _ _)) by lia.
Qed.

Lemma safe_main_invalid_too_much_witness :
  ∃ g, safe_main 49 (array_of 100 EmptyString) (line "abcd9") =
         Ok (report g 50 [invalid_input]) ∧
       1337 ≤ g ≤ 133799999 ∧
       stdout (report g 50 [invalid_input]) !! 1%nat = Some ("too much" ++ nl)%string.
Proof.
  apply (safe_main_invalid_too_much 49 (array_of 100 EmptyString) (chars "abcd9") []).
  - unfold INT_MAX. lia.
  - reflexivity.
  - by apply (bool_decide_unpack _).
  - by apply (bool_decide_unpack _).
  - intros Hnum. pose proof (numeral_no_NUL _ Hnum) as Hn.
    apply (is_number_numeral _ [] Hn) in Hnum. discriminate Hnum.
  - simpl. lia.
Defined.

(** Where the loop of [fgets] stops: when the room is used up, at the
    end of the stream, or behind a line feed. *)
Lemma fgets_loop_stops k : ∀ i a stream i' a' rest eof,
  fgets_loop k i a stream = Ok (i', a', rest, eof) →
  (i ≤ i')%nat ∧
  ((i' - i)%nat = k ∨
   ((i' - i)%nat = length stream ∧ eof = true) ∨
   (∃ j, (i' - i)%nat = S j ∧ stream !! j = Some LF)) ∧
  (eof = true → stream = [] ∨ (i < i')%nat).
Proof.
  induction k as [|k IH]; intros i a stream i' a' rest eof; simpl.
  { intros [= <- <- <- <-]. split; [lia |]. split; [left; lia | done]. }
  destruct stream as [|c stream].
  { intros [= <- <- <- <-]. split; [lia |]. split; [| by left].
    right. left. split; [simpl; lia | done]. }
  destruct (store a i c) as [a1|]; simpl; [| done].
  destruct (bool_decide_reflect (c = LF)) as [-> | Hc].
  - intros [= <- <- <- <-]. split; [lia |]. split; [| done].
    right. right. exists 0%nat. split; [lia | done].
  - intros H. apply IH in H as (Hle & Hstop & Heof).
    split; [lia |]. split; [| intros _; right; lia].
    destruct Hstop as [Hk | [[Hs He] | (j & Hj & Hlf)]].
    + left. lia.
    + right. left. split; [simpl; lia | done].
    + right. right. exists (S j). split; [lia | done].
Qed.

Lemma fgets_got a n stream got a' rest :
  (1 < n)%nat →
  fgets a n stream = Ok (got, a', rest) →
  (got = false ↔ stream = []).
Proof.
  intros Hn. unfold fgets. destruct stream as [|c stream].
  - destruct n as [|[|n]]; [lia | lia |]. simpl. by intros [= <- <- <-].
  - destruct (fgets_loop (n - 1) 0 a (c :: stream)) as [[[[i a1] r1] eof]|] eqn:Hloop;
      simpl; [| done].
    apply fgets_loop_stops in Hloop as (_ & Hstop & _).
    assert (0 < i)%nat as Hi.
    { destruct Hstop as [Hk | [[Hs _] | (j & Hj & _)]]; simpl in *; lia. }
    rewrite (bool_decide_eq_false_2 (i = 0%nat)) by lia. rewrite andb_false_r.
    destruct (store a1 i NUL); simpl; [| done]. by intros [= <- <- <-].
Qed.

(** X6.  On an input that is delivered without a read error, and
    whatever [atoi] the program is linked with: in every execution
    that ends, the read error is on the standard error exactly when
    the input was at its end before a single character was read. *)
Theorem safe_main_read_error (libc_atoi : list ascii → outcome Z)
    (draw : Z) (buffer stdin : list ascii) (r : run) :
  safe_main_with libc_atoi draw buffer stdin = Ok r →
  (read_error ∈ stderr r ↔ stdin = []).
Proof.
  unfold safe_main_with.
  destruct (fgets buffer 100 stdin) as [[[got b] rest]|] eqn:Hf; simpl; [| done].
  apply fgets_got in Hf; [| lia].
  assert (∀ err : list string,
            (read_error ∈ (if got then [] else [read_error]) ++ err ↔
             stdin = [] ∨ read_error ∈ err)) as Herr.
  { intros err. rewrite elem_of_app. destruct got.
    - rewrite elem_of_nil. split; [intros [[] | ?]; by right |].
      intros [He | ?]; [| by right]. apply Hf in He. done.
    - split; [intros _; left; by apply Hf | intros _; left; by left]. }
  destruct (strcspn b [LF]) as [k|]; simpl; [| done].
  destruct (store b k NUL) as [b1|]; simpl; [| done].
  destruct (is_number b1) as [[]|]; simpl; [| | done].
  - destruct (libc_atoi b1); simpl; [| done]. intros [= <-]. simpl.
    specialize (Herr []). rewrite app_nil_r in Herr. rewrite Herr.
    rewrite elem_of_nil. tauto.
  - destruct (write_fallback b1) as [b2|]; simpl; [| done].
    destruct (libc_atoi b2); simpl; [| done]. intros [= <-]. simpl.
    rewrite Herr. rewrite list_elem_of_singleton.
    split; [intros [? | Hx]; [done | discriminate Hx] | by left].
Qed.

Lemma safe_main_read_error_witness :
  read_error ∈ stderr (report 42 50 [read_error]) ↔ @nil ascii = [].
Proof.
  exact (safe_main_read_error atoi_wrapping 49 (array_of 100 "42") []
           (report 42 50 [read_error]) eq_refl).
Defined.

(** ** Further properties: the accesses of safe.c to its array *)

(** [fgets] on a stream that is not at its end: [m ≥ 1] characters are
    stored and terminated, and the reading stopped either because the
    room was used up, or at the end of the stream, or behind a line
    feed. *)
Lemma fgets_read a n stream :
  (1 < n ≤ length a)%nat → stream ≠ [] →
  ∃ m, fgets a n stream =
         Ok (true, take m stream ++ NUL :: drop (S m) a, drop m stream) ∧
       (1 ≤ m ≤ n - 1)%nat ∧ (m ≤ length stream)%nat ∧
       (m = (n - 1)%nat ∨ m = length stream ∨
        ∃ j, m = S j ∧ stream !! j = Some LF).
Proof.
  intros [Hn Hlen] Hne.
  destruct (fgets_loop_spec (n - 1) [] a stream) as (m & eof & Heq & Hm & Hms & _);
    [lia |].
  simpl in Heq. pose proof Heq as Hstop.
  apply fgets_loop_stops in Hstop as (_ & Hstop & _).
  rewrite Nat.sub_0_r in Hstop.
  assert (1 ≤ m)%nat as Hm1.
  { destruct Hstop as [Hk | [[Hs _] | (j & Hj & _)]]; [lia | | lia].
    destruct stream; [done | simpl in Hs; lia]. }
  exists m. unfold fgets. rewrite Heq. simpl.
  rewrite (bool_decide_eq_false_2 (m = 0%nat)) by lia. rewrite andb_false_r.
  assert (∃ x suf, drop m a = x :: suf) as (x & suf & Hd).
  { destruct (drop m a) as [|x suf] eqn:Hd; [| by eauto].
    apply (f_equal length) in Hd. rewrite length_drop in Hd. simpl in Hd. lia. }
  assert (length (take m stream) = m) as Htl by (rewrite length_take; lia).
  pose proof (store_middle (take m stream) x suf NUL) as Hst.
  rewrite Htl in Hst. rewrite Hd, Hst. simpl.
  split_and!; try done; try lia.
  - do 4 f_equal. replace (S m) with (m + 1)%nat by lia.
    by rewrite <- (drop_drop a 1 m), Hd.
  - destruct Hstop as [Hk | [[Hs _] | Hj]]; auto.
Qed.

Lemma strcspn_terminated p tail reject :
  ∃ k, strcspn (p ++ NUL :: tail) reject = Ok k ∧ (k ≤ length p)%nat.
Proof.
  induction p as [|c p (k & IH & Hk)]; simpl.
  - exists 0%nat. split; [done | lia].
  - destruct (bool_decide (c = NUL) || bool_decide (c ∈ reject)).
    + exists 0%nat. split; [done | lia].
    + exists (S k). rewrite IH. split; [done | lia].
Qed.

Lemma store_terminated p tail k :
  (k ≤ length p)%nat →
  ∃ p', store (p ++ NUL :: tail) k NUL = Ok (p' ++ NUL :: tail) ∧
        length p' = length p.
Proof.
  intros Hk. destruct (decide (k = length p)) as [-> | Hne].
  - exists p. by rewrite store_middle.
  - exists (<[k:=NUL]> p). rewrite store_Ok by (rewrite length_app; lia).
    rewrite insert_app_l by lia. by rewrite length_insert.
Qed.

Lemma is_number_loop_terminated p tail :
  ∃ b, is_number_loop (p ++ NUL :: tail) = Ok b.
Proof.
  induction p as [|c p IH]; simpl; [by eexists |].
  destruct (bool_decide (c = NUL)); [by eexists |].
  destruct (isdigit c); simpl; [apply IH | by eexists].
Qed.

(** In an array that holds a terminator [is_number] has an answer. *)
Lemma is_number_terminated p tail :
  ∃ b, is_number (p ++ NUL :: tail) = Ok b.
Proof.
  destruct p as [|c p]; [by eexists |].
  unfold is_number. simpl. destruct (is_sign c); simpl.
  - destruct p as [|d p]; simpl; [by eexists |].
    destruct (bool_decide (d = NUL)); [by eexists |].
    destruct (isdigit d); simpl; [apply is_number_loop_terminated | by eexists].
  - destruct (bool_decide (c = NUL)); [by eexists |].
    destruct (isdigit c); simpl; [apply is_number_loop_terminated | by eexists].
Qed.

(** X7.  Once the line read has four characters or more (its line
    feed counted), safe.c stays inside its array whatever the line
    and whatever the array held: no read and no store is out of
    bounds.  The terminator that [fgets] wrote is then at index 4 or
    later, where the fallback digits do not overwrite it. *)
Theorem safe_main_in_bounds (draw : Z) (buffer stdin : list ascii) :
  length buffer = 100%nat →
  (4 ≤ length stdin)%nat → LF ∉ take 3 stdin →
  safe_main draw buffer stdin ≠ Undefined OutOfBounds.
Proof.
  intros Hlen Hl Hnl.
  destruct (fgets_read buffer 100 stdin) as (m & Hf & [Hm1 Hm99] & Hms & Hstop);
    [lia | intros ->; simpl in Hl; lia |].
  assert (4 ≤ m)%nat as Hm4.
  { destruct Hstop as [-> | [-> | (j & -> & Hj)]]; [lia | lia |].
    destruct (decide (j < 3)%nat) as [Hj3 | ?]; [| lia].
    destruct Hnl. apply (list_elem_of_lookup_2 _ j).
    rewrite lookup_take. by rewrite decide_True. }
  unfold safe_main. rewrite Hf. simpl.
  set (p := take m stdin). set (tail := drop (S m) buffer).
  assert (length p = m) as Hp by (unfold p; rewrite length_take; lia).
  destruct (strcspn_terminated p tail [LF]) as (k & -> & Hk). simpl.
  destruct (store_terminated p tail k Hk) as (p' & -> & Hp'). simpl.
  destruct (is_number_terminated p' tail) as [[] ->]; simpl.
  - pose proof (atoi_terminated p' tail) as Hat.
    destruct (atoi _) as [g | []]; simpl; done.
  - rewrite write_fallback_spec by (rewrite length_app; simpl; lia). simpl.
    rewrite drop_app_le by lia.
    pose proof (atoi_terminated (chars "1337" ++ drop 4 p') tail) as Hat.
    rewrite <- app_assoc in Hat. simpl in Hat.
    destruct (atoi _) as [g | []]; simpl; done.
Qed.

Lemma safe_main_in_bounds_witness :
  safe_main 49 (replicate 100 "9"%char) (line "ab1") ≠ Undefined OutOfBounds.
Proof.
  apply (safe_main_in_bounds 49 (replicate 100 "9"%char) (line "ab1")).
  - reflexivity.
  - simpl. lia.
  - by apply (bool_decide_unpack _).
Defined.

(** What follows the terminator does not matter to [atoi]. *)
Lemma atoi_digits_tail q : ∀ acc t1 t2,
  atoi_digits acc (q ++ NUL :: t1) = atoi_digits acc (q ++ NUL :: t2).
Proof.
  induction q as [|c q IH]; intros acc t1 t2; simpl; [done |].
  destruct (isdigit c); [apply IH | done].
Qed.

Lemma atoi_tail q t1 t2 : atoi (q ++ NUL :: t1) = atoi (q ++ NUL :: t2).
Proof.
  unfold atoi. f_equal. induction q as [|c q IH]; simpl; [done |].
  destruct (isspace c); [apply IH |].
  unfold atoi_signed. simpl.
  destruct (bool_decide (c = "-"%char)); [by rewrite (atoi_digits_tail q 0 t1 t2) |].
  destruct (bool_decide (c = "+"%char)); [apply atoi_digits_tail |].
  apply (atoi_digits_tail (c :: q)).
Qed.

Lemma strcspn_string l rest :
  NUL ∉ l → LF ∉ l → strcspn (l ++ NUL :: rest) [LF] = Ok (length l).
Proof.
  intros Hnul Hnl. induction l as [|c l IH]; simpl; [done |].
  apply not_elem_of_cons in Hnul as [Hc0 Hnul].
  apply not_elem_of_cons in Hnl as [Hc1 Hnl].
  rewrite bool_decide_eq_false_2 by done.
  rewrite bool_decide_eq_false_2
    by (intros [-> | H]%elem_of_cons; [done | by apply elem_of_nil in H]).
  simpl. by rewrite IH.
Qed.

(** X8.  A last line that no line feed ends is handled like the same
    line with its line feed, when it is a numeral or has four
    characters or more. *)
Theorem safe_main_last_line (draw : Z) (buffer l rest : list ascii) :
  length buffer = 100%nat → NUL ∉ l → LF ∉ l →
  (1 ≤ length l ≤ 98)%nat →
  numeral l ∨ (4 ≤ length l)%nat →
  safe_main draw buffer l = safe_main draw buffer (l ++ LF :: rest).
Proof.
  intros Hlen Hnul Hnl [Hl1 Hl98] Hcase.
  rewrite safe_main_line by (done || lia). simpl.
  destruct (fgets_read buffer 100 l) as (m & Hf & [Hm1 Hm99] & Hms & Hstop);
    [lia | intros ->; simpl in Hl1; lia |].
  assert (m = length l) as ->.
  { destruct Hstop as [-> | [-> | (j & -> & Hj)]]; [lia | done |].
    destruct Hnl. by apply (list_elem_of_lookup_2 _ j). }
  rewrite take_ge in Hf by lia.
  unfold safe_main. rewrite Hf. simpl.
  rewrite strcspn_string by done. simpl.
  rewrite store_middle. simpl.
  set (t1 := drop (S (length l)) buffer).
  set (t2 := NUL :: drop (length l + 2) buffer).
  assert (is_number (l ++ NUL :: t1) = is_number (l ++ NUL :: t2)) as ->
    by (by rewrite !is_number_spec).
  destruct (is_number (l ++ NUL :: t2)) as [[]|] eqn:Hv; simpl; [| | done].
  - by rewrite (atoi_tail l t1 t2).
  - destruct Hcase as [Hnum | Hl4].
    { apply (is_number_numeral l t2 Hnul) in Hnum. congruence. }
    rewrite write_fallback_spec by (rewrite length_app; simpl; lia). simpl.
    rewrite !drop_app_le by lia.
    pose proof (atoi_tail (chars "1337" ++ drop 4 l) t1 t2) as Hat.
    rewrite <- !app_assoc in Hat. simpl in Hat. by rewrite Hat.
Qed.

Lemma safe_main_last_line_witness :
  safe_main 49 (array_of 100 "stale bytes") (chars "50") =
  safe_main 49 (array_of 100 "stale bytes") (line "50").
Proof.
  apply (safe_main_last_line 49 (array_of 100 "stale bytes") (chars "50") []).
  - reflexivity.
  - by apply (bool_decide_unpack _).
  - by apply (bool_decide_unpack _).
  - simpl. lia.
  - left. exists [], (chars "50"). split_and!; try done; [by left |].
    apply forallb_isdigit. reflexivity.
Defined.

(** ** Every path of safe.c reaches its prints *)

Lemma safe_main_with_atoi draw buffer stdin :
  safe_main draw buffer stdin = safe_main_with atoi draw buffer stdin.
Proof. reflexivity. Qed.


(** Without a line feed in the array, the index that [strcspn]
    returns is that of a terminator. *)
Lemma strcspn_finds_NUL s : ∀ k,
  LF ∉ s → strcspn s [LF] = Ok k → s !! k = Some NUL.
Proof.
  induction s as [|c s IH]; intros k Hnl; simpl; [done |].
  apply not_elem_of_cons in Hnl as [Hc Hnl].
  destruct (bool_decide_reflect (c = NUL)) as [-> | Hc0]; simpl.
  { by intros [= <-]. }
  rewrite bool_decide_eq_false_2
    by (intros [-> | H]%elem_of_cons; [done | by apply elem_of_nil in H]).
  destruct (strcspn s [LF]) as [k'|] eqn:Hk; simpl; [| done].
  intros [= <-]. simpl. by apply IH.
Qed.






(** On a line of 99 characters or more the array holds the first 99
    and the terminator, and the rest of [main] works on that text. *)
Lemma safe_main_with_long draw buffer stdin :
  length buffer = 100%nat →
  (99 ≤ length stdin)%nat → LF ∉ take 99 stdin →
  ∃ valid, is_number (take 99 stdin ++ [NUL]) = Ok valid ∧
    ∀ libc_atoi,
      safe_main_with libc_atoi draw buffer stdin =
        if valid : bool then
          guess ← libc_atoi (take 99 stdin ++ [NUL]);
          Ok (report guess (generate_secret draw) [])
        else
          guess ← libc_atoi (chars "1337" ++ drop 4 (take 99 stdin) ++ [NUL]);
          Ok (report guess (generate_secret draw) [invalid_input]).
Proof.
  intros Hlen Hl Hnl. set (text := take 99 stdin).
  assert (length text = 99%nat) as Htext by (unfold text; rewrite length_take; lia).
  pose proof (fgets_long buffer 100 stdin) as Hf. simpl in Hf.
  specialize (Hf ltac:(lia) Hlen Hl Hnl). fold text in Hf.
  destruct (strcspn_terminated text [] [LF]) as (k & Hk & Hkt).
  assert ((text ++ [NUL]) !! k = Some NUL) as Hat.
  { apply strcspn_finds_NUL; [| done].
    intros [Hin | Hin]%elem_of_app; [done |].
    apply list_elem_of_singleton in Hin. discriminate Hin. }
  assert (store (text ++ [NUL]) k NUL = Ok (text ++ [NUL])) as Hst.
  { rewrite store_Ok by (rewrite length_app; simpl; lia).
    by rewrite list_insert_id. }
  destruct (is_number_terminated text []) as [valid Hv].
  exists valid. split; [done |]. intros a.
  unfold safe_main_with. rewrite Hf. simpl. rewrite Hk. simpl.
  rewrite Hst. simpl. rewrite Hv. simpl. destruct valid; simpl; [done |].
  rewrite write_fallback_spec by (rewrite length_app; simpl; lia). simpl.
  by rewrite drop_app_le by lia.
Qed.

(** C2.  The call [fgets(buffer, sizeof(buffer), stdin)] of safe.c on
    the 100-byte array: every store it makes is inside the array, it
    takes at most 99 characters off the stream and writes them and one
    terminator, leaving the bytes behind the terminator as they were.
    When the line has 99 characters or more before its line feed the
    array holds its first 99 characters and the terminator, and the
    program goes on with that truncated text: [is_number] checks it,
    [atoi] converts it (or the fallback digits written over its first
    four characters), and the prints follow, as on the input cut to
    its first 99 characters; with an [atoi] that returns on strings
    the execution ends. *)
Theorem safe_read_bounded (draw : Z) (buffer stdin : list ascii) :
  length buffer = 100%nat →
  (∃ got buffer' m,
     fgets buffer 100 stdin = Ok (got, buffer', drop m stdin) ∧
     (m ≤ 99)%nat ∧
     length buffer' = 100%nat ∧
     (got = true → buffer' = take m stdin ++ NUL :: drop (S m) buffer) ∧
     (got = false → buffer' = buffer)) ∧
  ((99 ≤ length stdin)%nat → LF ∉ take 99 stdin →
     fgets buffer 100 stdin = Ok (true, take 99 stdin ++ [NUL], drop 99 stdin) ∧
     safe_main draw buffer stdin = safe_main draw buffer (take 99 stdin) ∧
     ∃ valid, is_number (take 99 stdin ++ [NUL]) = Ok valid ∧
       (∀ libc_atoi,
          safe_main_with libc_atoi draw buffer stdin =
            if valid : bool then
              guess ← libc_atoi (take 99 stdin ++ [NUL]);
              Ok (report guess (generate_secret draw) [])
            else
              guess ← libc_atoi (chars "1337" ++ drop 4 (take 99 stdin) ++ [NUL]);
              Ok (report guess (generate_secret draw) [invalid_input])) ∧
       safe_main draw buffer stdin =
         (if valid : bool then
            guess ← atoi (take 99 stdin ++ [NUL]);
            Ok (report guess (generate_secret draw) [])
          else
            guess ← atoi (chars "1337" ++ drop 4 (take 99 stdin) ++ [NUL]);
            Ok (report guess (generate_secret draw) [invalid_input])) ∧
       (∀ libc_atoi, returns_on_strings libc_atoi →
          ∃ r, safe_main_with libc_atoi draw buffer stdin = Ok r)).
Proof.
  intros Hlen. split.
  - destruct (fgets_spec buffer 100 stdin) as (got & a' & m & Heq & Hm & Hms & Hgot & Hnull & _);
      [lia |].
    exists got, a', m. split_and!; try done; try lia.
    + destruct got.
      * rewrite (Hgot eq_refl), length_app, length_take. simpl.
        rewrite length_drop. lia.
      * by destruct (Hnull eq_refl) as [-> _].
    + intros Hg. by destruct (Hnull Hg).
  - intros Hl Hnl.
    pose proof (fgets_long buffer 100 stdin) as H1.
    pose proof (fgets_long buffer 100 (take 99 stdin)) as H2.
    simpl in H1, H2.
    split; [apply H1; (done || lia) |]. split.
    { unfold safe_main. rewrite H1 by (done || lia).
      rewrite H2; [by rewrite take_take | lia | done | |].
      + rewrite length_take. lia.
      + by rewrite take_take. }
    destruct (safe_main_with_long draw buffer stdin Hlen Hl Hnl) as (valid & Hv & Heq).
    exists valid. split_and!; try done.
    + by rewrite safe_main_with_atoi, Heq.
    + intros a Ha. rewrite Heq. destruct valid.
      * destruct (Ha (take 99 stdin) []) as [v ->]. by eexists.
      * destruct (Ha (chars "1337" ++ drop 4 (take 99 stdin)) []) as [v Hr].
        rewrite <- app_assoc in Hr. rewrite Hr. by eexists.
Qed.

Lemma safe_read_bounded_witness :
  let stdin := replicate 97 "0"%char ++ chars "42" ++ replicate 60 "9"%char ++ [LF] in
  length (array_of 100 "garbage") = 100%nat ∧
  fgets (array_of 100 "garbage") 100 stdin =
    Ok (true, replicate 97 "0"%char ++ chars "42" ++ [NUL],
        replicate 60 "9"%char ++ [LF]) ∧
  safe_main 49 (array_of 100 "garbage") stdin = Ok (report 42 50 []) ∧
  safe_main_with atoi_wrapping 49 (array_of 100 "garbage")
    (replicate 120 "7"%char ++ [LF]) = Ok (report (-1) 50 []).
Proof.
  intros stdin.
  assert (length (array_of 100 "garbage") = 100%nat) as H by reflexivity.
  split; [exact H |].
  destruct (safe_read_bounded 49 (array_of 100 "garbage") stdin H) as [_ Hlong].
  destruct Hlong as (Hf & _ & valid & Hv & _ & Hm & _);
    [simpl; lia | by apply (bool_decide_unpack _) |].
  split; [exact Hf |]. split.
  - rewrite Hm. vm_compute in Hv. injection Hv as <-. reflexivity.
  - destruct (safe_read_bounded 49 (array_of 100 "garbage")
                (replicate 120 "7"%char ++ [LF]) H) as [_ Hlong7].
    destruct Hlong7 as (_ & _ & valid7 & Hv7 & Hw & _);
      [simpl; lia | by apply (bool_decide_unpack _) |].
    rewrite Hw. vm_compute in Hv7. injection Hv7 as <-. reflexivity.
Defined.

(** ** Further properties: both programs on numerals *)

(** X9.  [is_number] puts no bound on the digits: a line that is a
    numeral too large (or too small) for an [int] passes the check and
    reaches [atoi], whose behaviour is then undefined. *)
Theorem safe_main_overflow (draw : Z) (buffer sign ds rest : list ascii) :
  length buffer = 100%nat →
  optional_sign sign → ds ≠ [] → Forall ascii_digit ds →
  (length (sign ++ ds) ≤ 98)%nat →
  ¬ in_int_range (if bool_decide (sign = chars "-") then - digits_value 0 ds
                  else digits_value 0 ds) →
  safe_main draw buffer ((sign ++ ds) ++ LF :: rest) = Undefined Overflow.
Proof.
  intros Hlen Hsign Hne Hall Hl Hv.
  rewrite safe_main_numeral; [| done | by exists sign, ds | done].
  destruct (atoi_numeral sign ds (NUL :: drop (length (sign ++ ds) + 2) buffer)
              Hsign Hne Hall) as (_ & _ & Hout).
  by rewrite (Hout Hv).
Qed.

Lemma safe_main_overflow_witness :
  safe_main 49 (array_of 100 EmptyString) (line "2147483648") = Undefined Overflow.
Proof.
  apply (safe_main_overflow 49 (array_of 100 EmptyString) [] (chars "2147483648") []).
  - reflexivity.
  - by left.
  - done.
  - apply forallb_isdigit. reflexivity.
  - simpl. lia.
  - by apply (bool_decide_unpack _).
Defined.

Lemma numeral_token l : numeral l → token l.
Proof.
  intros (sign & ds & -> & Hsign & Hne & Hall). split.
  - destruct sign, ds; done.
  - apply Forall_app. split.
    + destruct Hsign as [-> | [-> | ->]]; repeat constructor; done.
    + eapply Forall_impl; [exact Hall |]. intros c Hc%isdigit_ascii_digit.
      split; [by apply isdigit_not_space | intros ->; discriminate Hc].
Qed.

(** X10.  On a line that is a numeral of at most 31 characters the two
    programs do the same: same guess, same output, nothing reported
    (and the same undefined call of [atoi] when no [int] holds the
    value), whatever their arrays held. *)
Theorem safe_vuln_agree (draw : Z) (buffer100 buffer32 l rest : list ascii) :
  length buffer100 = 100%nat → length buffer32 = 32%nat →
  numeral l → (length l ≤ 31)%nat →
  safe_main draw buffer100 (l ++ LF :: rest) =
  vuln_main draw buffer32 (l ++ LF :: rest).
Proof.
  intros H100 H32 Hnum Hl.
  rewrite safe_main_numeral by (done || lia).
  unfold vuln_main.
  pose proof (scanf_s_token buffer32 [] l (LF :: rest)) as Hscan.
  simpl in Hscan. rewrite Hscan;
    [| constructor | by apply numeral_token | lia | right; by eexists _, _].
  simpl.
  by rewrite (atoi_tail l (NUL :: drop (length l + 2) buffer100)
                (drop (S (length l)) buffer32)).
Qed.

Lemma safe_vuln_agree_witness :
  safe_main 49 (array_of 100 "old") (line "-5") =
  vuln_main 49 (array_of 32 "stale") (line "-5").
Proof.
  apply (safe_vuln_agree 49 (array_of 100 "old") (array_of 32 "stale") (chars "-5") []).
  - reflexivity.
  - reflexivity.
  - exists (chars "-"), (chars "5"). split_and!; try done.
    + right. by right.
    + apply forallb_isdigit. reflexivity.
  - simpl. lia.
Defined.

(** X11.  Whatever the secret drawn, a guess of 0 or less is answered
    "too small", a guess above 100 "too much", and "congrats" is
    printed only for a guess between 1 and 100 that equals the
    secret; this holds for every execution of either program that
    ends. *)
Theorem verdict_by_range (draw : Z) (buffer stdin : list ascii) (r : run) :
  0 ≤ draw ≤ INT_MAX →
  safe_main draw buffer stdin = Ok r ∨ vuln_main draw buffer stdin = Ok r →
  (guess r ≤ 0 → stdout r !! 1%nat = Some ("too small" ++ nl)%string) ∧
  (100 < guess r → stdout r !! 1%nat = Some ("too much" ++ nl)%string) ∧
  (stdout r !! 1%nat = Some ("congrats" ++ nl)%string →
   guess r = secret r ∧ 1 ≤ guess r ≤ 100).
Proof.
  intros Hdraw Hr. pose proof (generate_secret_bounds draw Hdraw) as Hs.
  assert (∃ g err, r = report g (generate_secret draw) err) as (g & err & ->).
  { destruct Hr as [Hr | Hr].
    - apply safe_main_report in Hr as (g & err & -> & _). eauto.
    - apply vuln_main_report in Hr as (g & ->). eauto. }
  simpl. unfold compare. rewrite Z.gtb_ltb.
  destruct (Z.ltb_spec g (generate_secret draw));
    [| destruct (Z.ltb_spec (generate_secret draw) g)]; simpl.
  - split_and!; [done | lia | intros [= Hx]].
  - split_and!; [lia | done | intros [= Hx]].
  - split_and!; [lia | lia | intros _; lia].
Qed.

Lemma verdict_by_range_witness :
  stdout (report (-5) 50 []) !! 1%nat = Some ("too small" ++ nl)%string.
Proof.
  apply (proj1 (verdict_by_range 49 (array_of 100 EmptyString) (line "-5")
                  (report (-5) 50 []) ltac:(unfold INT_MAX; lia)
                  (or_introl eq_refl))).
  simpl. lia.
Defined.

Lemma atoi_digits_unterminated p : ∀ acc,
  forallb isdigit p = true → atoi_digits acc p = Undefined OutOfBounds.
Proof.
  induction p as [|c p IH]; intros acc Hp; simpl; [done |].
  apply andb_true_iff in Hp as [-> Hp]. by apply IH.
Qed.

(** X12.  The fallback digits get no terminator of their own.  After
    a rejected line of at most two characters nothing that the
    program wrote follows them, and when the bytes that the array held
    from index 4 on are all digits, [atoi] reads past the end of the
    array. *)
Theorem safe_main_short_line_overrun (draw : Z) (buffer l rest : list ascii) :
  length buffer = 100%nat → NUL ∉ l → LF ∉ l → ¬ numeral l →
  (length l ≤ 2)%nat →
  forallb isdigit (drop 4 buffer) = true →
  safe_main draw buffer (l ++ LF :: rest) = Undefined OutOfBounds.
Proof.
  intros Hlen Hnul Hnl Hnum Hl Hstale.
  rewrite safe_main_invalid by (done || lia).
  assert (drop 4 (l ++ NUL :: NUL :: drop (length l + 2) buffer) = drop 4 buffer)
    as ->.
  { destruct l as [|c0 [|c1 [|c2 l]]]; simpl in Hl |- *; try lia.
    - by rewrite drop_drop.
    - by rewrite drop_drop.
    - by rewrite drop_0. }
  rewrite atoi_fallback_digits.
  by rewrite atoi_digits_unterminated.
Qed.

Lemma safe_main_short_line_overrun_witness :
  safe_main 49 (replicate 100 "9"%char) [LF] = Undefined OutOfBounds.
Proof.
  apply (safe_main_short_line_overrun 49 (replicate 100 "9"%char) [] []).
  - reflexivity.
  - by apply (bool_decide_unpack _).
  - by apply (bool_decide_unpack _).
  - intros Hnum%numeral_after_sign. by destruct Hnum.
  - simpl. lia.
  - reflexivity.
Defined.

Lemma render_signed_value sign ds :
  optional_sign sign → canonical_digits ds →
  ¬ (sign = chars "-" ∧ ds = chars "0") →
  render_int (if bool_decide (sign = chars "-") then - digits_value 0 ds
              else digits_value 0 ds) = strip_plus (sign ++ ds).
Proof.
  intros Hsign Hcd Hneg.
  destruct (canonical_digits_proper ds Hcd) as [Hne Hp].
  destruct Hcd as (_ & Hall & Hz).
  assert (0 ≤ digits_value 0 ds) as H0
    by (apply digits_value_ge; [by apply forallb_isdigit | lia]).
  pose proof (render_nat_value ds Hne Hp) as Hrender.
  destruct Hsign as [-> | [-> | ->]].
  - rewrite bool_decide_eq_false_2 by done.
    rewrite render_int_nonneg, Hrender by done.
    symmetry. by apply strip_plus_digits, Hp.
  - rewrite bool_decide_eq_false_2 by done.
    by rewrite render_int_nonneg, Hrender by done.
  - rewrite bool_decide_eq_true_2 by done.
    assert (1 ≤ digits_value 0 ds).
    { apply head_nonzero_pos; [apply Hp | | done].
      destruct Hz as [Hz | Hz]; [| done]. destruct Hneg. by split. }
    by rewrite render_int_neg, Hrender by lia.
Qed.

(** X13.  safe.c echoes a numeral typed in canonical form: when the
    line has at most 98 characters and an [int] can hold its value,
    the execution ends, nothing is reported, the guess is that value,
    and the line printed after the verdict is "you guessed : "
    followed by the text typed, a leading [+] dropped. *)
Theorem safe_main_echo (draw : Z) (buffer l rest : list ascii) :
  length buffer = 100%nat → canonical_numeral l → (length l ≤ 98)%nat →
  ∃ v, (∀ tail, atoi_value (l ++ NUL :: tail) = Ok v) ∧
       printf_d "you guessed : " v =
         ("you guessed : " ++ string_of_list_ascii (strip_plus l) ++ nl)%string ∧
       (in_int_range v →
        safe_main draw buffer (l ++ LF :: rest) =
          Ok (report v (generate_secret draw) []) ∧
        stdout (report v (generate_secret draw) []) !! 2%nat =
          Some ("you guessed : " ++ string_of_list_ascii (strip_plus l) ++ nl)%string).
Proof.
  intros Hlen (sign & ds & -> & Hsign & Hcd & Hneg) Hl.
  pose proof Hcd as (Hne & Hall & _).
  exists (if bool_decide (sign = chars "-") then - digits_value 0 ds
          else digits_value 0 ds).
  assert (printf_d "you guessed : "
            (if bool_decide (sign = chars "-") then - digits_value 0 ds
             else digits_value 0 ds) =
          ("you guessed : " ++ string_of_list_ascii (strip_plus (sign ++ ds)) ++ nl)%string)
    as Hecho by (unfold printf_d; by rewrite render_signed_value).
  split_and!.
  - intros tail. by apply atoi_numeral.
  - exact Hecho.
  - intros Hv. split; [| exact (f_equal Some Hecho)].
    rewrite safe_main_numeral; [| done | by exists sign, ds | done].
    destruct (atoi_numeral sign ds (NUL :: drop (length (sign ++ ds) + 2) buffer)
                Hsign Hne Hall) as (_ & Hin & _).
    by rewrite (Hin Hv).
Qed.

Lemma safe_main_echo_witness :
  safe_main 49 (array_of 100 "old") (line "+50") = Ok (report 50 50 []) ∧
  stdout (report 50 50 []) !! 2%nat = Some ("you guessed : 50" ++ nl)%string.
Proof.
  destruct (safe_main_echo 49 (array_of 100 "old") (chars "+50") [])
    as (v & Hv & _ & Hrun).
  - reflexivity.
  - exists (chars "+"), (chars "50"). split_and!; try done.
    + right. by left.
    + split_and!; [done | | by right]. apply forallb_isdigit. reflexivity.
    + by intros [? _].
  - simpl. lia.
  - specialize (Hv []). injection Hv as <-.
    apply Hrun. by apply (bool_decide_unpack _).
Defined.
